(** * js-assignments, task 08: objects

    A shallow embedding of [src/task/08-objects-tasks.js] and the
    properties of its selector builder and of its [Rectangle] constructor.

    JavaScript objects are mutable and are handled by reference, so the
    embedding keeps an explicit store: one table of arrays (the [items]
    arrays that [push] mutates in place) and one table of [Selector]
    instances.  Methods are computations in a state-and-exception monad over
    that store; a [throw] keeps whatever the store was when it happened. *)

From Stdlib Require Import ZArith.
From stdpp Require Import base option list strings.

Local Open Scope string_scope.
Local Open Scope list_scope.

(** ** Rectangle *)

(** The own properties of an object that [new Rectangle(...)] made. *)
Record Rectangle_object (number : Type) : Type := Rectangle_ {
  width : number;
  height : number;
}.
Arguments Rectangle_ {number} width height.
Arguments width {number} r.
Arguments height {number} r.

(** The function object that [function () { return width * height; }]
    makes: it holds the two parameters of the call of [Rectangle] in which it
    was made, and these are never assigned to. *)
Record closure (number : Type) : Type := Closure {
  closure_width : number;
  closure_height : number;
}.
Arguments Closure {number} closure_width closure_height.
Arguments closure_width {number} c.
Arguments closure_height {number} c.

(** The objects made so far, and the [getArea] property of the one object
    [Rectangle.prototype] that all of them have as their prototype; it has
    no such property before the first construction. *)
Record Rectangle_heap (number : Type) : Type := Rectangle_heap_ {
  objects : list (Rectangle_object number);
  prototype_getArea : option (closure number);
}.
Arguments Rectangle_heap_ {number} objects prototype_getArea.
Arguments objects {number} r.
Arguments prototype_getArea {number} r.

(** [new Rectangle(width, height)]: the new object gets its two fields, and
    the property of the prototype is overwritten. *)
Definition Rectangle {number : Type} (width height : number)
    (s : Rectangle_heap number) : nat * Rectangle_heap number :=
  (length (objects s),
   Rectangle_heap_ (objects s ++ [Rectangle_ width height])
                   (Some (Closure width height))).

(** [r.getArea()]: the object has no [getArea] of its own, so the property
    is read from the prototype and the closure found there is run; [mul] is
    the [*] of numbers.  [None] stands for a call that does not return (no
    object at [r], or no property yet). *)
Definition getArea {number : Type} (mul : number → number → number) (r : nat)
    (s : Rectangle_heap number) : option number :=
  match objects s !! r with
  | Some _ =>
      match prototype_getArea s with
      | Some c => Some (mul (closure_width c) (closure_height c))
      | None => None
      end
  | None => None
  end.

(** ** Values of the selector builder *)

(** The [type] tag of an item object: the property names of the [order]
    table, and ['combinator'], which the table does not have. *)
Inductive type_tag : Type :=
  | t_element | t_id | t_class | t_attr | t_pseudoClass | t_pseudoElement
  | t_combinator.

Global Instance type_tag_eq_dec : EqDecision type_tag.
Proof. solve_decision. Defined.

(** An item object [{ type, value }].  Items are never mutated after they
    are created, so sharing one between two arrays cannot be observed and
    they are kept as plain values.  Selector parts are taken to be
    strings. *)
Record item : Type := Item { type : type_tag; value : string }.

Global Instance item_eq_dec : EqDecision item.
Proof. solve_decision. Defined.

(** [this.touched = { element, id, pseudoElement }]. *)
Record touched_flags : Type := Touched {
  touched_element : bool;
  touched_id : bool;
  touched_pseudoElement : bool;
}.

Global Instance touched_flags_eq_dec : EqDecision touched_flags.
Proof. solve_decision. Defined.

(** A [Selector] instance: a reference to its [items] array and its
    [touched] record.  The third field, [order], is the same constant table
    in every instance and is never written; it is the function [order]
    below. *)
Record instance : Type := Instance_ { items : nat; touched : touched_flags }.

Global Instance instance_eq_dec : EqDecision instance.
Proof. solve_decision. Defined.

(** The store: arrays and [Selector] instances, each addressed by its
    position; allocation appends. *)
Record heap : Type := Heap {
  arrays : list (list item);
  selectors : list instance;
}.

Definition empty_heap : heap := Heap [] [].

(** Both exceptions of the file are [new Error(message)]; they differ by
    their message only. *)
Inductive exn : Type := Error (message : string).

Definition DuplicateSelectorPartError : exn :=
  Error "Element, id and pseudo-element should not occur more then one time inside the selector".

Definition SelectorOrderError : exn :=
  Error "Selector parts should be arranged in the following order: element, id, class, attribute, pseudo-class, pseudo-element".

(** ** The monad of methods *)

(** How a call ends: normally, by a [throw], or [Dangling] when it follows
    a reference that the store does not hold.  The last case is not a
    JavaScript behaviour (a reference always has a target); [valid_call_runs]
    below shows it never happens on a well-formed store. *)
Inductive completion (A : Type) : Type :=
  | Normal (a : A)
  | Throw (e : exn)
  | Dangling.
Arguments Normal {A} a.
Arguments Throw {A} e.
Arguments Dangling {A}.

Definition M (A : Type) : Type := heap → completion A * heap.

Global Instance M_ret : MRet M := λ A a h, (Normal a, h).

Global Instance M_bind : MBind M := λ A B f m h,
  match m h with
  | (Normal a, h') => f a h'
  | (Throw e, h') => (Throw e, h')
  | (Dangling, h') => (Dangling, h')
  end.

Definition throw {A} (e : exn) : M A := λ h, (Throw e, h).

Definition get_instance (r : nat) : M instance := λ h,
  match selectors h !! r with
  | Some s => (Normal s, h)
  | None => (Dangling, h)
  end.

Definition get_array (a : nat) : M (list item) := λ h,
  match arrays h !! a with
  | Some l => (Normal l, h)
  | None => (Dangling, h)
  end.

(** A new array object / a new instance, at the next free position. *)
Definition new_array (l : list item) : M nat := λ h,
  (Normal (length (arrays h)), Heap (arrays h ++ [l]) (selectors h)).

Definition new_instance (s : instance) : M nat := λ h,
  (Normal (length (selectors h)), Heap (arrays h) (selectors h ++ [s])).

(** [array.push(x)], in place. *)
Definition push (a : nat) (x : item) : M () := λ h,
  match arrays h !! a with
  | Some l => (Normal (), Heap (<[a := l ++ [x]]> (arrays h)) (selectors h))
  | None => (Dangling, h)
  end.

(** [this.touched.f = true], in place. *)
Definition set_touched (r : nat) (f : touched_flags → touched_flags) : M () := λ h,
  match selectors h !! r with
  | Some s =>
      (Normal (),
       Heap (arrays h) (<[r := Instance_ (items s) (f (touched s))]> (selectors h)))
  | None => (Dangling, h)
  end.

(** ** class Selector *)

(** [this.order]: a property lookup; a name the table lacks gives
    [undefined], here [None]. *)
Definition order (t : type_tag) : option Z :=
  match t with
  | t_element => Some 1%Z
  | t_id => Some 2%Z
  | t_class => Some 3%Z
  | t_attr => Some 4%Z
  | t_pseudoClass => Some 5%Z
  | t_pseudoElement => Some 6%Z
  | t_combinator => None
  end.

(** [x > y] on what [order] returns: with [undefined] on either side the
    comparison is against [NaN] and is false. *)
Definition js_gt (x y : option Z) : bool :=
  match x, y with
  | Some a, Some b => (b <? a)%Z
  | _, _ => false
  end.

Module Selector.

(** [constructor(items)]: [this.items = items || []]; an array is truthy
    even when empty, so only a missing argument allocates. *)
Definition constructor (items : option nat) : M nat :=
  a ← match items with
      | Some a => mret a
      | None => new_array []
      end;
  new_instance (Instance_ a (Touched false false false)).

(** [find] returns the first item that satisfies the test, an object and
    hence truthy, or [undefined]. *)
Definition checkOrder (this : nat) (orderType : type_tag) : M () :=
  s ← get_instance this;
  l ← get_array (items s);
  match find (λ item, js_gt (order (type item)) (order orderType)) l with
  | Some _ => throw SelectorOrderError
  | None => mret ()
  end.

Definition element (this : nat) (value : string) : M nat :=
  s ← get_instance this;
  if touched_element (touched s) then throw DuplicateSelectorPartError else
  checkOrder this t_element;;
  set_touched this (λ t, Touched true (touched_id t) (touched_pseudoElement t));;
  s ← get_instance this;
  push (items s) (Item t_element value);;
  mret this.

Definition id (this : nat) (value : string) : M nat :=
  s ← get_instance this;
  if touched_id (touched s) then throw DuplicateSelectorPartError else
  checkOrder this t_id;;
  set_touched this (λ t, Touched (touched_element t) true (touched_pseudoElement t));;
  s ← get_instance this;
  push (items s) (Item t_id ("#" +:+ value));;
  mret this.

Definition class (this : nat) (value : string) : M nat :=
  checkOrder this t_class;;
  s ← get_instance this;
  push (items s) (Item t_class ("." +:+ value));;
  mret this.

Definition attr (this : nat) (value : string) : M nat :=
  checkOrder this t_attr;;
  s ← get_instance this;
  push (items s) (Item t_attr ("[" +:+ value +:+ "]"));;
  mret this.

Definition pseudoClass (this : nat) (value : string) : M nat :=
  checkOrder this t_pseudoClass;;
  s ← get_instance this;
  push (items s) (Item t_pseudoClass (":" +:+ value));;
  mret this.

Definition pseudoElement (this : nat) (value : string) : M nat :=
  s ← get_instance this;
  if touched_pseudoElement (touched s) then throw DuplicateSelectorPartError else
  checkOrder this t_pseudoElement;;
  set_touched this (λ t, Touched (touched_element t) (touched_id t) true);;
  s ← get_instance this;
  push (items s) (Item t_pseudoElement ("::" +:+ value));;
  mret this.

(** [[].concat(this.items).map(item => item.value).join('')]: [concat]
    builds a new array, so nothing of the store is written. *)
Definition stringify (this : nat) : M string :=
  s ← get_instance this;
  l ← get_array (items s);
  mret (String.concat "" (map value ([] ++ l))).

End Selector.

(** ** The facade *)

Module cssSelectorBuilder.

Definition element (value : string) : M nat :=
  r ← Selector.constructor None; Selector.element r value.

Definition id (value : string) : M nat :=
  r ← Selector.constructor None; Selector.id r value.

Definition class (value : string) : M nat :=
  r ← Selector.constructor None; Selector.class r value.

Definition attr (value : string) : M nat :=
  r ← Selector.constructor None; Selector.attr r value.

Definition pseudoClass (value : string) : M nat :=
  r ← Selector.constructor None; Selector.pseudoClass r value.

Definition pseudoElement (value : string) : M nat :=
  r ← Selector.constructor None; Selector.pseudoElement r value.

Definition stringify : M string :=
  r ← Selector.constructor None; Selector.stringify r.

(** [[].concat(selector1.items, [{...}], selector2.items)] is a new array
    holding the items of both operands around the combinator item. *)
Definition combine (selector1 : nat) (combinator : string) (selector2 : nat) : M nat :=
  s1 ← get_instance selector1;
  l1 ← get_array (items s1);
  s2 ← get_instance selector2;
  l2 ← get_array (items s2);
  a ← new_array ([] ++ l1 ++ [Item t_combinator (" " +:+ combinator +:+ " ")] ++ l2);
  Selector.constructor (Some a).

End cssSelectorBuilder.

(** ** Calls and sessions *)

(** The six appending methods, which the facade mirrors one for one. *)
Inductive method : Type :=
  | m_element | m_id | m_class | m_attr | m_pseudoClass | m_pseudoElement.

Global Instance method_eq_dec : EqDecision method.
Proof. solve_decision. Defined.

Definition Selector_call (m : method) : nat → string → M nat :=
  match m with
  | m_element => Selector.element
  | m_id => Selector.id
  | m_class => Selector.class
  | m_attr => Selector.attr
  | m_pseudoClass => Selector.pseudoClass
  | m_pseudoElement => Selector.pseudoElement
  end.

Definition cssSelectorBuilder_call (m : method) : string → M nat :=
  match m with
  | m_element => cssSelectorBuilder.element
  | m_id => cssSelectorBuilder.id
  | m_class => cssSelectorBuilder.class
  | m_attr => cssSelectorBuilder.attr
  | m_pseudoClass => cssSelectorBuilder.pseudoClass
  | m_pseudoElement => cssSelectorBuilder.pseudoElement
  end.

(** What a client of the module can do: call the facade, or call a method
    of a selector it holds. *)
Inductive call : Type :=
  | Facade (m : method) (v : string)
  | FacadeStringify
  | Combine (r1 : nat) (c : string) (r2 : nat)
  | Method (r : nat) (m : method) (v : string)
  | Stringify (r : nat).

Inductive result : Type := Ref (r : nat) | Str (s : string).

Definition exec (c : call) : M result :=
  match c with
  | Facade m v => r ← cssSelectorBuilder_call m v; mret (Ref r)
  | FacadeStringify => s ← cssSelectorBuilder.stringify; mret (Str s)
  | Combine r1 c r2 => r ← cssSelectorBuilder.combine r1 c r2; mret (Ref r)
  | Method r m v => r' ← Selector_call m r v; mret (Ref r')
  | Stringify r => s ← Selector.stringify r; mret (Str s)
  end.

(** A session: the calls made so far, each with how it ended, and the
    store they left. *)
Record session : Type := Session {
  log : list (call * completion result);
  store : heap;
}.

Definition start : session := Session [] empty_heap.

Definition step (st : session) (c : call) : session :=
  let '(o, h) := exec c (store st) in Session (log st ++ [(c, o)]) h.

Definition run (cs : list call) (st : session) : session := foldl step st cs.

Definition reachable (h : heap) : Prop := ∃ cs, store (run cs start) = h.

(** ** Reading the store *)

(** The item sequence of the selector at [r]. *)
Definition fragments (h : heap) (r : nat) : option (list item) :=
  s ← selectors h !! r; arrays h !! items s.

Definition flags (h : heap) (r : nat) : option touched_flags :=
  touched <$> selectors h !! r.

(** Every instance has its array, and no two instances have the same. *)
Definition wf (h : heap) : Prop :=
  (∀ r s, selectors h !! r = Some s → items s < length (arrays h)) ∧
  (∀ r1 r2 s1 s2, selectors h !! r1 = Some s1 → selectors h !! r2 = Some s2 →
     items s1 = items s2 → r1 = r2).

(** ** What each call does to the store *)

Definition method_type (m : method) : type_tag :=
  match m with
  | m_element => t_element
  | m_id => t_id
  | m_class => t_class
  | m_attr => t_attr
  | m_pseudoClass => t_pseudoClass
  | m_pseudoElement => t_pseudoElement
  end.

(** The item that method [m] pushes for the argument [v]. *)
Definition part (m : method) (v : string) : item :=
  match m with
  | m_element => Item t_element v
  | m_id => Item t_id ("#" +:+ v)
  | m_class => Item t_class ("." +:+ v)
  | m_attr => Item t_attr ("[" +:+ v +:+ "]")
  | m_pseudoClass => Item t_pseudoClass (":" +:+ v)
  | m_pseudoElement => Item t_pseudoElement ("::" +:+ v)
  end.

(** The flag that method [m] tests first, if it tests one. *)
Definition is_touched (m : method) (t : touched_flags) : bool :=
  match m with
  | m_element => touched_element t
  | m_id => touched_id t
  | m_pseudoElement => touched_pseudoElement t
  | _ => false
  end.

Definition touch (m : method) (t : touched_flags) : touched_flags :=
  match m with
  | m_element => Touched true (touched_id t) (touched_pseudoElement t)
  | m_id => Touched (touched_element t) true (touched_pseudoElement t)
  | m_pseudoElement => Touched (touched_element t) (touched_id t) true
  | _ => t
  end.

(** The rank of an item is above the rank of [t]. *)
Definition above (t : type_tag) (i : item) : bool :=
  js_gt (order (type i)) (order t).

Definition combinator_item (c : string) : item :=
  Item t_combinator (" " +:+ c +:+ " ").

(** ** The store as seen from one selector *)

(** The item sequence and the flags of the selector at [r]. *)
Definition view (h : heap) (r : nat) : option (list item * touched_flags) :=
  s ← selectors h !! r; l ← arrays h !! items s; Some (l, touched s).

Definition untouched : touched_flags := Touched false false false.

(** The two ways the calls change a store: a new instance with a new array,
    and an instance updated in place together with its array. *)
Definition alloc (h : heap) (l : list item) (t : touched_flags) : heap :=
  Heap (arrays h ++ [l]) (selectors h ++ [Instance_ (length (arrays h)) t]).

Definition update (h : heap) (r : nat) (s : instance) (l : list item)
    (t : touched_flags) : heap :=
  Heap (<[items s := l]> (arrays h)) (<[r := Instance_ (items s) t]> (selectors h)).

(** ** One call, summarised *)

(** The sequence and flags a new instance starts with, by the call that
    makes it. *)
Definition born (h : heap) (c : call) (l : list item) (t : touched_flags) : Prop :=
  match c with
  | Facade m v => l = [part m v] ∧ t = touch m untouched
  | FacadeStringify => l = [] ∧ t = untouched
  | Combine r1 cc r2 =>
      ∃ l1 t1 l2 t2, view h r1 = Some (l1, t1) ∧ view h r2 = Some (l2, t2) ∧
        l = l1 ++ [combinator_item cc] ++ l2 ∧ t = untouched
  | _ => False
  end.

(** A call leaves the store as it was, or adds one instance, or appends one
    item to one instance. *)
Inductive change (h : heap) (c : call) : completion result → heap → Prop :=
  | change_none o :
      (∀ r, o ≠ Normal (Ref r)) → change h c o h
  | change_new l t :
      born h c l t →
      change h c
        (match c with
         | FacadeStringify => Normal (Str "")
         | _ => Normal (Ref (length (selectors h)))
         end)
        (alloc h l t)
  | change_append r m v s l :
      c = Method r m v →
      selectors h !! r = Some s → arrays h !! items s = Some l →
      is_touched m (touched s) = false →
      existsb (above (method_type m)) l = false →
      change h c (Normal (Ref r)) (update h r s (l ++ [part m v]) (touch m (touched s))).

(** ** The states a selector can be in *)

(** Whatever the session, the sequence and flags of an instance are built
    by these four rules: the three ways an instance is made, and a method
    call that passes both tests. *)
Inductive built : list item → touched_flags → Prop :=
  | built_facade m v : built [part m v] (touch m untouched)
  | built_empty : built [] untouched
  | built_combine l1 t1 c l2 t2 :
      built l1 t1 → built l2 t2 → built (l1 ++ [combinator_item c] ++ l2) untouched
  | built_append l t m v :
      built l t → is_touched m t = false →
      existsb (above (method_type m)) l = false →
      built (l ++ [part m v]) (touch m t).

(** ** Ranks *)

(** The ranks of the items that have one, in sequence order. *)
Definition ranks (l : list item) : list Z := omap (λ i, order (type i)) l.

Definition nondecreasing (ks : list Z) : Prop :=
  ∀ (i j : nat) a b, (i < j)%nat → ks !! i = Some a → ks !! j = Some b → (a ≤ b)%Z.

(** The ranks of [l], cut at every item that has none: one list of ranks
    for each stretch of items between two combinator items. *)
Fixpoint runs (l : list item) : list (list Z) :=
  match l with
  | [] => [[]]
  | i :: l' =>
      match order (type i) with
      | None => [] :: runs l'
      | Some k =>
          match runs l' with
          | seg :: segs => (k :: seg) :: segs
          | [] => [[k]]
          end
      end
  end.

(** How often a tag occurs in a sequence. *)
Definition occurrences (t : type_tag) (l : list item) : nat :=
  length (filter (λ i, type i = t) l).

Definition no_combinator (l : list item) : Prop :=
  Forall (λ i, type i ≠ t_combinator) l.

(** [k] put at the end of the last run. *)
Fixpoint snoc_last (k : Z) (segs : list (list Z)) : list (list Z) :=
  match segs with
  | [] => [[k]]
  | [seg] => [seg ++ [k]]
  | seg :: segs' => seg :: snoc_last k segs'
  end.

(** ** Occurrences of the parts that may come once *)

Definition once_only (m : method) : bool :=
  match m with
  | m_element | m_id | m_pseudoElement => true
  | _ => false
  end.

(** ** What the log tells about an instance *)

(** [c] is a call of the appending method [m] on the instance [r]: the
    method itself, or the facade function, which makes an instance and calls
    the method on it. *)
Definition is_append (m : method) (r : nat) (c : call) : Prop :=
  match c with
  | Facade m' _ => m' = m
  | Method r' m' _ => r' = r ∧ m' = m
  | _ => False
  end.

(** Some call of method [m] on [r] has returned: [m] has appended its item
    to [r]. *)
Definition appended_via (lg : list (call * completion result)) (r : nat)
    (m : method) : Prop :=
  ∃ c, (c, Normal (Ref r)) ∈ lg ∧ is_append m r c.

(** [r] is what a call of [combine] returned. *)
Definition combined (lg : list (call * completion result)) (r : nat) : Prop :=
  ∃ r1 c r2, (Combine r1 c r2, Normal (Ref r)) ∈ lg.

Definition log_ok (st : session) : Prop :=
  (∀ c r, (c, Normal (Ref r)) ∈ log st → r < length (selectors (store st))) ∧
  (∀ r l t, view (store st) r = Some (l, t) →
     (∀ m, once_only m = true → is_touched m t = true ↔ appended_via (log st) r m) ∧
     (no_combinator l ↔ ¬ combined (log st) r)).

(** The references that [c] uses are references of the store. *)
Definition refs_valid (h : heap) (c : call) : Prop :=
  match c with
  | Combine r1 _ r2 => r1 < length (selectors h) ∧ r2 < length (selectors h)
  | Method r _ _ | Stringify r => r < length (selectors h)
  | _ => True
  end.

(** Some item of [l] other than a combinator item has a rank strictly
    greater than the rank of [t]. *)
Definition higher_ranked (t : type_tag) (l : list item) : Prop :=
  ∃ i a b, i ∈ l ∧ type i ≠ t_combinator ∧
    order (type i) = Some a ∧ order t = Some b ∧ (b < a)%Z.

(** ** Sessions used as examples *)

(** [element('a').class('x')]. *)
Definition session_element_class : list call :=
  [Facade m_element "a"; Method 0 m_class "x"].

(** [combine(element('div').id('main'), '+', element('table'))]. *)
Definition session_combine_ranks : list call :=
  [Facade m_element "div"; Method 0 m_id "main"; Facade m_element "table";
   Combine 0 "+" 1].

(** [combine(element('div'), ' ', element('table'))]. *)
Definition session_combine_elements : list call :=
  [Facade m_element "div"; Facade m_element "table"; Combine 0 " " 1].

(** A series of method calls [r.m(v)], each run whatever the one before
    did. *)
Definition method_calls (ops : list (nat * method * string)) (h : heap) : heap :=
  foldl (λ h '(r, m, v), (Selector_call m r v h).2) h ops.

(** The values of the items, one after the other. *)
Definition text (l : list item) : string := foldr (λ i s, value i +:+ s) "" l.

(** ** Chains of calls *)

(** [r.m1(v1).m2(v2)...]: each method is called on what the one before
    returned; an exception ends the chain. *)
Fixpoint calls_on (r : nat) (ops : list (method * string)) : M nat :=
  match ops with
  | [] => mret r
  | (m, v) :: ops' => r' ← Selector_call m r v; calls_on r' ops'
  end.

(** [cssSelectorBuilder.m0(v0).m1(v1)...]. *)
Definition chain (m0 : method) (v0 : string) (ops : list (method * string)) : M nat :=
  r ← cssSelectorBuilder_call m0 v0; calls_on r ops.

(** The items that a series of calls pushes when every call passes. *)
Definition parts (ops : list (method * string)) : list item :=
  map (λ op, part op.1 op.2) ops.

(** A sequence in rank order in which element, id and pseudo-element items
    come at most once. *)
Definition in_order (l : list item) : Prop :=
  nondecreasing (ranks l) ∧
  (occurrences t_element l ≤ 1)%nat ∧ (occurrences t_id l ≤ 1)%nat ∧
  (occurrences t_pseudoElement l ≤ 1)%nat.

(** The rank of the items that method [m] pushes. *)
Definition rank (m : method) : Z :=
  match order (method_type m) with
  | Some k => k
  | None => 0%Z
  end.

(** [new Rectangle(w1, h1); new Rectangle(w2, h2); ...]. *)
Definition constructions {number : Type} (whs : list (number * number))
    (s : Rectangle_heap number) : Rectangle_heap number :=
  foldl (λ s wh, (Rectangle wh.1 wh.2 s).2) s whs.

(** * Properties *)

(** ** The examples of the documentation in the source *)

Example doc_example_id_class :
  ((r ← cssSelectorBuilder.id "main"; r ← Selector.class r "container";
    r ← Selector.class r "editable"; Selector.stringify r) empty_heap).1
  = Normal "#main.container.editable".
Proof. reflexivity. Qed.

Example doc_example_combine :
  ((a ← cssSelectorBuilder.element "div"; a ← Selector.id a "main";
    a ← Selector.class a "container"; a ← Selector.class a "draggable";
    b ← cssSelectorBuilder.element "table"; b ← Selector.id b "data";
    c ← cssSelectorBuilder.element "tr"; c ← Selector.pseudoClass c "nth-of-type(even)";
    d ← cssSelectorBuilder.element "td"; d ← Selector.pseudoClass d "nth-of-type(even)";
    cd ← cssSelectorBuilder.combine c " " d;
    bcd ← cssSelectorBuilder.combine b "~" cd;
    r ← cssSelectorBuilder.combine a "+" bcd;
    Selector.stringify r) empty_heap).1
  = Normal "div#main.container.draggable + table#data ~ tr:nth-of-type(even)   td:nth-of-type(even)".
Proof. reflexivity. Qed.

Example doc_example_Rectangle :
  getArea Z.mul 0 (Rectangle 10%Z 20%Z (Rectangle_heap_ [] None)).2 = Some 200%Z ∧
  objects (Rectangle 10%Z 20%Z (Rectangle_heap_ [] None)).2 !! 0
    = Some (Rectangle_ 10%Z 20%Z).
Proof. split; reflexivity. Qed.

(** ** The methods, call by call *)

Lemma find_existsb {A} (f : A → bool) (l : list A) :
  find f l = None ↔ existsb f l = false.
Proof.
  induction l as [|x l IH]; simpl; [done|].
  destruct (f x); simpl; [split; discriminate | exact IH].
Qed.

Lemma checkOrder_spec h r t s l :
  selectors h !! r = Some s → arrays h !! items s = Some l →
  Selector.checkOrder r t h =
    if existsb (above t) l then (Throw SelectorOrderError, h) else (Normal (), h).
Proof.
  intros Hs Hl. unfold Selector.checkOrder, mbind, M_bind, get_instance, get_array.
  rewrite Hs, Hl. fold (above t).
  destruct (find (above t) l) eqn:Hf.
  - destruct (existsb (above t) l) eqn:He; [done|].
    apply find_existsb in He. congruence.
  - apply find_existsb in Hf. by rewrite Hf.
Qed.

Lemma Selector_call_spec h r m v s l :
  selectors h !! r = Some s → arrays h !! items s = Some l →
  Selector_call m r v h =
    if is_touched m (touched s) then (Throw DuplicateSelectorPartError, h)
    else if existsb (above (method_type m)) l then (Throw SelectorOrderError, h)
    else (Normal r,
          Heap (<[items s := l ++ [part m v]]> (arrays h))
               (<[r := Instance_ (items s) (touch m (touched s))]> (selectors h))).
Proof.
  intros Hs Hl.
  assert (Hr : r < length (selectors h)) by (by eapply lookup_lt_Some).
  assert (Hid : <[r := Instance_ (items s) (touched s)]> (selectors h) = selectors h).
  { apply list_insert_id. by destruct s. }
  destruct m; simpl;
    unfold Selector.element, Selector.id, Selector.class, Selector.attr,
      Selector.pseudoClass, Selector.pseudoElement;
    unfold mbind, M_bind at 1; simpl;
    try (unfold get_instance at 1; rewrite Hs; simpl;
         match goal with |- context [if ?b then _ else _] => destruct b eqn:Ht end;
         [done|]; unfold mbind, M_bind at 1);
    rewrite (checkOrder_spec h r _ s l Hs Hl);
    (destruct (existsb _ l); [done|]);
    unfold mbind, M_bind, set_touched, get_instance, push, mret, M_ret; simpl;
    rewrite ?Hs; simpl;
    rewrite ?list_lookup_insert_eq by done; simpl;
    rewrite ?Hl, ?Hid; done.
Qed.

Lemma constructor_fresh h :
  Selector.constructor None h =
    (Normal (length (selectors h)),
     Heap (arrays h ++ [[]])
          (selectors h ++ [Instance_ (length (arrays h)) (Touched false false false)])).
Proof. reflexivity. Qed.

Lemma lookup_snoc {A} (l : list A) (x : A) : (l ++ [x]) !! length l = Some x.
Proof. rewrite lookup_app_r by lia. by rewrite Nat.sub_diag. Qed.

Lemma insert_snoc {A} (l : list A) (x y : A) : <[length l := y]> (l ++ [x]) = l ++ [y].
Proof. rewrite insert_app_r_alt by lia. by rewrite Nat.sub_diag. Qed.

Lemma cssSelectorBuilder_call_spec h m v :
  cssSelectorBuilder_call m v h =
    (Normal (length (selectors h)),
     Heap (arrays h ++ [[part m v]])
          (selectors h ++ [Instance_ (length (arrays h)) (touch m (Touched false false false))])).
Proof.
  set (s := Instance_ (length (arrays h)) (Touched false false false)).
  set (h1 := Heap (arrays h ++ [[]]) (selectors h ++ [s])).
  assert (H : cssSelectorBuilder_call m v h = Selector_call m (length (selectors h)) v h1).
  { by destruct m. }
  rewrite H, (Selector_call_spec h1 _ m v s []).
  - replace (is_touched m (touched s)) with false by (by destruct m).
    simpl. by rewrite !insert_snoc.
  - apply lookup_snoc.
  - apply lookup_snoc.
Qed.

Lemma combine_spec h r1 c r2 s1 l1 s2 l2 :
  selectors h !! r1 = Some s1 → arrays h !! items s1 = Some l1 →
  selectors h !! r2 = Some s2 → arrays h !! items s2 = Some l2 →
  cssSelectorBuilder.combine r1 c r2 h =
    (Normal (length (selectors h)),
     Heap (arrays h ++ [l1 ++ [combinator_item c] ++ l2])
          (selectors h ++ [Instance_ (length (arrays h)) (Touched false false false)])).
Proof.
  intros H1 H1' H2 H2'.
  unfold cssSelectorBuilder.combine, mbind, M_bind, get_instance, get_array.
  by rewrite H1, H1', H2, H2'.
Qed.

Lemma stringify_spec h r s l :
  selectors h !! r = Some s → arrays h !! items s = Some l →
  Selector.stringify r h = (Normal (String.concat "" (map value l)), h).
Proof.
  intros Hs Hl. unfold Selector.stringify, mbind, M_bind, get_instance, get_array.
  by rewrite Hs, Hl.
Qed.

(** A call on a reference the store does not hold stops at once. *)
Lemma Selector_call_dangling h r m v :
  selectors h !! r = None → Selector_call m r v h = (Dangling, h).
Proof.
  intros Hr.
  destruct m; simpl;
    unfold Selector.element, Selector.id, Selector.class, Selector.attr,
      Selector.pseudoClass, Selector.pseudoElement, Selector.checkOrder,
      mbind, M_bind, get_instance;
    by rewrite Hr.
Qed.

Lemma stringify_dangling h r :
  selectors h !! r = None → Selector.stringify r h = (Dangling, h).
Proof.
  intros Hr. unfold Selector.stringify, mbind, M_bind, get_instance. by rewrite Hr.
Qed.

Lemma combine_dangling h r1 c r2 :
  selectors h !! r1 = None ∨ selectors h !! r2 = None →
  wf h → cssSelectorBuilder.combine r1 c r2 h = (Dangling, h).
Proof.
  intros Hr [Hwf _].
  unfold cssSelectorBuilder.combine, mbind, M_bind, get_instance, get_array.
  destruct (selectors h !! r1) as [s1|] eqn:H1; [|done].
  destruct (lookup_lt_is_Some_2 (arrays h) (items s1)) as [l1 Hl1]; [by eapply Hwf|].
  rewrite Hl1. destruct Hr as [?|Hr]; [done|]. by rewrite Hr.
Qed.

Lemma wf_array h r s :
  wf h → selectors h !! r = Some s → ∃ l, arrays h !! items s = Some l.
Proof.
  intros [Hwf _] Hs. apply lookup_lt_is_Some_2. by eapply Hwf.
Qed.

(** ** The store as seen from one selector *)

Lemma view_Some h r l t :
  view h r = Some (l, t) ↔
  ∃ s, selectors h !! r = Some s ∧ arrays h !! items s = Some l ∧ touched s = t.
Proof.
  unfold view. split.
  - intros H. destruct (selectors h !! r) as [s|] eqn:Hs; [|done]. simpl in H.
    destruct (arrays h !! items s) as [l0|] eqn:Hl; [|done]. simpl in H.
    exists s. by simplify_eq.
  - intros (s & -> & Hl & <-). simpl. by rewrite Hl.
Qed.

Lemma view_fragments h r l t : view h r = Some (l, t) → fragments h r = Some l.
Proof.
  intros (s & Hs & Hl & _)%view_Some. unfold fragments. by rewrite Hs.
Qed.

Lemma fragments_view h r l : fragments h r = Some l → ∃ t, view h r = Some (l, t).
Proof.
  unfold fragments, view. intros H.
  destruct (selectors h !! r) as [s|]; [|done]. simpl in *.
  rewrite H. by eexists.
Qed.

Lemma view_is_Some h r : wf h → is_Some (view h r) ↔ r < length (selectors h).
Proof.
  intros Hwf. split.
  - intros [[l t] (s & Hs & _)%view_Some]. by eapply lookup_lt_Some.
  - intros [s Hs]%lookup_lt_is_Some_2.
    destruct (wf_array h r s Hwf Hs) as [l Hl].
    exists (l, touched s). apply view_Some. eauto.
Qed.

Lemma wf_empty : wf empty_heap.
Proof. split; simpl; intros *; by rewrite lookup_nil. Qed.

Lemma wf_alloc h l t : wf h → wf (alloc h l t).
Proof.
  intros [Hlt Hinj]. split; simpl.
  - intros r s [Hs|[Hr Hs]]%lookup_app_Some; rewrite length_app; simpl.
    + specialize (Hlt r s Hs). lia.
    + apply list_lookup_singleton_Some in Hs as [_ <-]. simpl. lia.
  - intros r1 r2 s1 s2 [H1|[Hr1 H1]]%lookup_app_Some
      [H2|[Hr2 H2]]%lookup_app_Some Heq.
    + eauto.
    + apply list_lookup_singleton_Some in H2 as [_ <-]. simpl in Heq.
      specialize (Hlt r1 s1 H1). lia.
    + apply list_lookup_singleton_Some in H1 as [_ <-]. simpl in Heq.
      specialize (Hlt r2 s2 H2). lia.
    + apply list_lookup_singleton_Some in H1 as [? _].
      apply list_lookup_singleton_Some in H2 as [? _]. lia.
Qed.

Lemma view_alloc_old h l t r :
  wf h → r < length (selectors h) → view (alloc h l t) r = view h r.
Proof.
  intros [Hlt _] Hr. unfold view, alloc; simpl.
  rewrite lookup_app_l by done.
  destruct (selectors h !! r) as [s|] eqn:Hs; [simpl|done].
  rewrite lookup_app_l; [done|]. by eapply Hlt.
Qed.

Lemma view_alloc_new h l t : view (alloc h l t) (length (selectors h)) = Some (l, t).
Proof.
  unfold view, alloc; simpl. rewrite lookup_snoc; simpl. by rewrite lookup_snoc.
Qed.

Lemma wf_update h r s l t :
  wf h → selectors h !! r = Some s → wf (update h r s l t).
Proof.
  intros [Hlt Hinj] Hs. split; simpl.
  - intros r' s' H'. rewrite length_insert.
    destruct (decide (r = r')) as [<-|Hne].
    + rewrite list_lookup_insert_eq in H' by (by eapply lookup_lt_Some).
      simplify_eq; simpl. by eapply Hlt.
    + rewrite list_lookup_insert_ne in H' by done. by eapply Hlt.
  - assert (Hsame : ∀ r' s', <[r:=Instance_ (items s) t]> (selectors h) !! r' = Some s' →
              ∃ s0, selectors h !! r' = Some s0 ∧ items s0 = items s').
    { intros r' s' H'. destruct (decide (r = r')) as [<-|Hne].
      - rewrite list_lookup_insert_eq in H' by (by eapply lookup_lt_Some).
        simplify_eq. eauto.
      - rewrite list_lookup_insert_ne in H' by done. eauto. }
    intros r1 r2 s1 s2 (s1' & H1 & E1)%Hsame (s2' & H2 & E2)%Hsame Heq.
    eapply Hinj; [done..|congruence].
Qed.

Lemma view_update_eq h r s l t :
  wf h → selectors h !! r = Some s → view (update h r s l t) r = Some (l, t).
Proof.
  intros [Hlt _] Hs. unfold view, update; simpl.
  rewrite list_lookup_insert_eq by (by eapply lookup_lt_Some); simpl.
  rewrite list_lookup_insert_eq by (by eapply Hlt). done.
Qed.

Lemma view_update_ne h r s l t r' :
  wf h → selectors h !! r = Some s → r' ≠ r →
  view (update h r s l t) r' = view h r'.
Proof.
  intros [Hlt Hinj] Hs Hne. unfold view, update; simpl.
  rewrite list_lookup_insert_ne by done.
  destruct (selectors h !! r') as [s'|] eqn:Hs'; [simpl|done].
  rewrite list_lookup_insert_ne; [done|].
  intros Heq. apply Hne. eapply Hinj; [done..|]. done.
Qed.

(** ** One call, summarised *)

Lemma exec_change c h : wf h → change h c (exec c h).1 (exec c h).2.
Proof.
  intros Hwf. destruct c as [m v| |r1 cc r2|r m v|r]; simpl; unfold mbind, M_bind.
  - rewrite cssSelectorBuilder_call_spec; simpl.
    by apply (change_new h (Facade m v) [part m v] (touch m untouched)).
  - unfold cssSelectorBuilder.stringify, mbind, M_bind.
    rewrite constructor_fresh.
    rewrite (stringify_spec _ _ (Instance_ (length (arrays h)) untouched) []);
      [|apply lookup_snoc|apply lookup_snoc]; simpl.
    by apply (change_new h FacadeStringify [] untouched).
  - destruct (selectors h !! r1) as [s1|] eqn:H1;
      [destruct (selectors h !! r2) as [s2|] eqn:H2|].
    + destruct (wf_array h r1 s1 Hwf H1) as [l1 Hl1].
      destruct (wf_array h r2 s2 Hwf H2) as [l2 Hl2].
      rewrite (combine_spec h r1 cc r2 s1 l1 s2 l2) by done; simpl.
      apply (change_new h (Combine r1 cc r2) (l1 ++ [combinator_item cc] ++ l2) untouched).
      exists l1, (touched s1), l2, (touched s2).
      split_and!; [apply view_Some; eauto|apply view_Some; eauto|done..].
    + rewrite combine_dangling by eauto. simpl. by apply change_none.
    + rewrite combine_dangling by eauto. simpl. by apply change_none.
  - destruct (selectors h !! r) as [s|] eqn:Hs.
    + destruct (wf_array h r s Hwf Hs) as [l Hl].
      rewrite (Selector_call_spec h r m v s l) by done.
      destruct (is_touched m (touched s)) eqn:Ht; [by apply change_none|].
      destruct (existsb _ l) eqn:Ho; [by apply change_none|]; simpl.
      by eapply change_append.
    + rewrite Selector_call_dangling by done. by apply change_none.
  - destruct (selectors h !! r) as [s|] eqn:Hs.
    + destruct (wf_array h r s Hwf Hs) as [l Hl].
      rewrite (stringify_spec h r s l) by done. by apply change_none.
    + rewrite stringify_dangling by done. by apply change_none.
Qed.

Lemma change_wf h c o h' : wf h → change h c o h' → wf h'.
Proof.
  intros Hwf [o' _|l t _|r m v s l _ Hs _ _ _]; [done|by apply wf_alloc|by apply wf_update].
Qed.

Lemma run_snoc cs c st : run (cs ++ [c]) st = step (run cs st) c.
Proof. unfold run. by rewrite foldl_app. Qed.

Lemma step_change st c :
  wf (store st) →
  ∃ o h', step st c = Session (log st ++ [(c, o)]) h' ∧ change (store st) c o h'.
Proof.
  intros Hwf. pose proof (exec_change c (store st) Hwf) as Hc.
  unfold step. destruct (exec c (store st)) as [o h']. eauto.
Qed.

Lemma run_wf cs : wf (store (run cs start)).
Proof.
  induction cs as [|c cs IH] using rev_ind; [apply wf_empty|].
  rewrite run_snoc. destruct (step_change _ c IH) as (o & h' & -> & Hc).
  by eapply change_wf.
Qed.

Lemma reachable_wf h : reachable h → wf h.
Proof. intros [cs <-]. apply run_wf. Qed.

(** ** The states a selector can be in *)

Lemma change_built h c o h' :
  wf h → change h c o h' →
  (∀ r l t, view h r = Some (l, t) → built l t) →
  ∀ r l t, view h' r = Some (l, t) → built l t.
Proof.
  intros Hwf [o' _|l0 t0 Hb|r0 m v s l0 _ Hs Hl Ht Ho] IH r l t Hv; [by eapply IH| |].
  - destruct (decide (r < length (selectors h))) as [Hr|Hr].
    { rewrite view_alloc_old in Hv by done. by eapply IH. }
    assert (r = length (selectors h)) as ->.
    { assert (r < length (selectors (alloc h l0 t0))) as Hlt.
      { apply view_is_Some; [by apply wf_alloc|]. by rewrite Hv. }
      simpl in Hlt. rewrite length_app in Hlt. simpl in Hlt. lia. }
    rewrite view_alloc_new in Hv. simplify_eq.
    destruct c as [m v| |r1 cc r2|?|?]; simpl in Hb; try done.
    + destruct Hb as [-> ->]. constructor.
    + destruct Hb as [-> ->]. constructor.
    + destruct Hb as (l1 & t1 & l2 & t2 & H1 & H2 & -> & ->).
      econstructor; by eapply IH.
  - destruct (decide (r = r0)) as [->|Hne].
    + rewrite view_update_eq in Hv by done. simplify_eq.
      constructor; [|done..]. eapply IH. apply view_Some. eauto.
    + rewrite view_update_ne in Hv by done. by eapply IH.
Qed.

Lemma run_built cs r l t : view (store (run cs start)) r = Some (l, t) → built l t.
Proof.
  revert r l t. induction cs as [|c cs IH] using rev_ind; [done|].
  rewrite run_snoc.
  destruct (step_change (run cs start) c (run_wf cs)) as (o & h' & -> & Hc); simpl.
  eapply change_built; [apply run_wf|done..].
Qed.

Lemma reachable_built h r l t : reachable h → view h r = Some (l, t) → built l t.
Proof. intros [cs <-]. apply run_built. Qed.

(** ** Ranks *)

Local Open Scope Z_scope.

Example runs_example :
  runs [Item t_element "div"; Item t_id "#main"; Item t_combinator " + ";
        Item t_element "table"] = [[1; 2]; [1]].
Proof. reflexivity. Qed.

Lemma runs_nonempty l : runs l ≠ [].
Proof. destruct l as [|i l]; simpl; [done|]. by repeat case_match. Qed.

Lemma runs_snoc l i k :
  order (type i) = Some k → runs (l ++ [i]) = snoc_last k (runs l).
Proof.
  intros Hk. induction l as [|a l IH]; simpl.
  - by rewrite Hk.
  - rewrite IH. pose proof (runs_nonempty l) as Hne.
    destruct (order (type a)) as [k'|]; destruct (runs l) as [|seg [|seg' segs]]; done.
Qed.

Lemma runs_app_combinator l1 i l2 :
  order (type i) = None → runs (l1 ++ i :: l2) = runs l1 ++ runs l2.
Proof.
  intros Hi. induction l1 as [|a l1 IH]; simpl.
  - by rewrite Hi.
  - rewrite IH. pose proof (runs_nonempty l1) as Hne.
    destruct (order (type a)); destruct (runs l1); done.
Qed.

Lemma concat_runs l : concat (runs l) = ranks l.
Proof.
  induction l as [|a l IH]; simpl; [done|].
  unfold ranks in *. simpl. pose proof (runs_nonempty l) as Hne.
  destruct (order (type a)); destruct (runs l); simpl in *; [done|by f_equal|done..].
Qed.

Lemma runs_no_combinator l : no_combinator l → runs l = [ranks l].
Proof.
  induction 1 as [|a l Ha _ IH]; simpl; [done|].
  unfold ranks in *. simpl. rewrite IH.
  destruct a as [[] ?]; simpl in *; done.
Qed.

Lemma nondecreasing_nil : nondecreasing [].
Proof. intros i j a b _ H. by rewrite lookup_nil in H. Qed.

Lemma nondecreasing_singleton k : nondecreasing [k].
Proof.
  intros i j a b Hij [-> _]%list_lookup_singleton_Some [-> _]%list_lookup_singleton_Some.
  lia.
Qed.

Lemma nondecreasing_snoc ks k :
  nondecreasing ks → Forall (λ a, a ≤ k) ks → nondecreasing (ks ++ [k]).
Proof.
  intros Hks Hle i j a b Hij Hi Hj.
  apply lookup_app_Some in Hj as [Hj|[Hlen Hj]].
  - rewrite lookup_app_l in Hi by (apply lookup_lt_Some in Hj; lia). eauto.
  - apply list_lookup_singleton_Some in Hj as [Hj <-].
    rewrite lookup_app_l in Hi by lia.
    rewrite Forall_forall in Hle. apply Hle. by eapply list_elem_of_lookup_2.
Qed.

Lemma snoc_last_nondecreasing k segs :
  Forall nondecreasing segs → Forall (λ a, a ≤ k) (concat segs) →
  Forall nondecreasing (snoc_last k segs).
Proof.
  induction segs as [|seg segs IH]; simpl; intros Hs Hk.
  - constructor; [apply nondecreasing_singleton|done].
  - apply Forall_cons in Hs as [Hseg Hs]. apply Forall_app in Hk as [Hk1 Hk2].
    destruct segs as [|seg' segs].
    + constructor; [by apply nondecreasing_snoc|done].
    + constructor; [done|]. by apply IH.
Qed.

(** The test of [checkOrder] passes exactly when no rank is above. *)
Lemma not_above_ranks t k l :
  order t = Some k → existsb (above t) l = false ↔ Forall (λ a, a ≤ k) (ranks l).
Proof.
  intros Hk. unfold ranks, above. rewrite Hk.
  induction l as [|i l IH]; simpl; [by split; [constructor|]|].
  rewrite orb_false_iff, IH.
  destruct (order (type i)) as [a|]; simpl.
  - rewrite Forall_cons, Z.ltb_ge. done.
  - tauto.
Qed.

Lemma order_method_type m : ∃ k, order (method_type m) = Some k.
Proof. destruct m; simpl; eauto. Qed.

Lemma order_part m v : order (type (part m v)) = order (method_type m).
Proof. by destruct m. Qed.

Lemma built_runs l t : built l t → Forall nondecreasing (runs l).
Proof.
  induction 1 as [m v| |l1 t1 c l2 t2 _ IH1 _ IH2|l t m v _ IH Ht Ho].
  - destruct m; simpl; (constructor; [apply nondecreasing_singleton|done]).
  - simpl. constructor; [apply nondecreasing_nil|done].
  - simpl. rewrite runs_app_combinator by done. by apply Forall_app.
  - destruct (order_method_type m) as [k Hk].
    rewrite (runs_snoc l _ k) by (by rewrite order_part).
    apply snoc_last_nondecreasing; [done|].
    rewrite concat_runs. by apply (not_above_ranks (method_type m)).
Qed.

Local Close Scope Z_scope.

(** ** Occurrences of the parts that may come once *)

Lemma occurrences_app t l1 l2 :
  occurrences t (l1 ++ l2) = occurrences t l1 + occurrences t l2.
Proof. unfold occurrences. by rewrite filter_app, length_app. Qed.

Lemma occurrences_part m m' v :
  occurrences (method_type m) [part m' v] = if decide (m = m') then 1 else 0.
Proof. by destruct m, m'. Qed.

Lemma is_touched_touch m m' t :
  once_only m = true →
  is_touched m (touch m' t) = if decide (m = m') then true else is_touched m t.
Proof. by destruct m, m'. Qed.

(** In a sequence without combinator item, a part that may come once is
    there exactly when its flag is set, and then once. *)
Lemma built_occurrences l t :
  built l t → no_combinator l →
  ∀ m, once_only m = true →
    occurrences (method_type m) l = if is_touched m t then 1 else 0.
Proof.
  induction 1 as [m0 v| |l1 t1 c l2 t2 _ _ _ _|l t m0 v _ IH Ht Ho]; intros Hnc m Hm.
  - rewrite occurrences_part, is_touched_touch by done.
    case_decide; [done|]. by destruct m.
  - by destruct m.
  - apply Forall_app in Hnc as [_ Hnc]. apply Forall_cons in Hnc as [Hnc _]. done.
  - apply Forall_app in Hnc as [Hnc _].
    rewrite occurrences_app, occurrences_part, is_touched_touch, (IH Hnc m Hm) by done.
    case_decide as Heq; [subst m0; by rewrite Ht|].
    destruct (is_touched m t); lia.
Qed.

(** ** What the log tells about an instance *)

Lemma appended_via_snoc lg c o r m :
  appended_via (lg ++ [(c, o)]) r m ↔
  appended_via lg r m ∨ (o = Normal (Ref r) ∧ is_append m r c).
Proof.
  unfold appended_via. setoid_rewrite elem_of_app. setoid_rewrite list_elem_of_singleton.
  split.
  - intros (c' & [H|H] & Ha); [left; eauto|right]. by simplify_eq.
  - intros [(c' & H & Ha)|[-> Ha]]; eauto.
Qed.

Lemma combined_snoc lg c o r :
  combined (lg ++ [(c, o)]) r ↔
  combined lg r ∨ (o = Normal (Ref r) ∧ ∃ r1 cc r2, c = Combine r1 cc r2).
Proof.
  unfold combined. setoid_rewrite elem_of_app. setoid_rewrite list_elem_of_singleton.
  split.
  - intros (r1 & cc & r2 & [H|H]); [left; eauto|right]. simplify_eq. eauto.
  - intros [(r1 & cc & r2 & H)|[-> (r1 & cc & r2 & ->)]]; eauto 6.
Qed.

Lemma no_combinator_part m v : no_combinator [part m v].
Proof. constructor; [by destruct m|constructor]. Qed.

Lemma no_combinator_snoc l m v : no_combinator (l ++ [part m v]) ↔ no_combinator l.
Proof.
  unfold no_combinator. rewrite Forall_app. pose proof (no_combinator_part m v). tauto.
Qed.

Lemma not_no_combinator_combine l1 c l2 : ¬ no_combinator (l1 ++ [combinator_item c] ++ l2).
Proof.
  intros [_ H]%Forall_app. apply Forall_cons in H as [H _]. done.
Qed.

Lemma log_ok_start : log_ok start.
Proof.
  split; simpl.
  - intros c r H. by apply elem_of_nil in H.
  - intros r l t H. done.
Qed.

Lemma log_ok_step st c : wf (store st) → log_ok st → log_ok (step st c).
Proof.
  intros Hwf [Hb Ht].
  destruct (step_change st c Hwf) as (o & h' & -> & Hc).
  assert (Hold : ∀ (r : nat) m, (length (selectors (store st)) ≤ r)%nat → ¬ appended_via (log st) r m).
  { intros r m Hr (c' & Hin & _). apply Hb in Hin. lia. }
  assert (Hold' : ∀ r : nat, (length (selectors (store st)) ≤ r)%nat → ¬ combined (log st) r).
  { intros r Hr (r1 & cc & r2 & Hin). apply Hb in Hin. lia. }
  destruct Hc as [o Hno|l0 t0 Hborn|r0 m0 v s l0 -> Hs Hl Htouched Horder].
  - split; simpl.
    + intros c' r [Hin|Hin%list_elem_of_singleton]%elem_of_app; [eauto|].
      simplify_eq. by destruct (Hno r).
    + intros r l t Hv. destruct (Ht r l t Hv) as [Ht1 Ht2]. split.
      * intros m Hm. rewrite appended_via_snoc, (Ht1 m Hm).
        split; [tauto|]. intros [?|[-> _]]; [done|]. by destruct (Hno r).
      * rewrite combined_snoc, Ht2.
        split; [|tauto]. intros Hn [?|[-> _]]; [done|]. by destruct (Hno r).
  - set (r0 := length (selectors (store st))) in *.
    assert (Ho : ∀ r,
      match c with FacadeStringify => Normal (Str "") | _ => Normal (Ref r0) end
        = Normal (Ref r) → r = r0).
    { intros r. destruct c; intros; by simplify_eq. }
    split; simpl.
    + intros c' r [Hin|Hin%list_elem_of_singleton]%elem_of_app; rewrite length_app; simpl.
      * apply Hb in Hin. lia.
      * injection Hin as -> E. symmetry in E. apply Ho in E. lia.
    + intros r l t Hv.
      destruct (decide (r < r0)) as [Hr|Hr].
      { rewrite view_alloc_old in Hv by done. destruct (Ht r l t Hv) as [Ht1 Ht2]. split.
        - intros m Hm. rewrite appended_via_snoc, (Ht1 m Hm).
          split; [tauto|]. intros [?|[E _]]; [done|]. apply Ho in E. lia.
        - rewrite combined_snoc, Ht2.
          split; [|tauto]. intros Hn [?|[E _]]; [done|]. apply Ho in E. lia. }
      assert (r = r0) as ->.
      { assert (r < length (selectors (alloc (store st) l0 t0))) as Hlt.
        { apply view_is_Some; [by apply wf_alloc|]. by rewrite Hv. }
        simpl in Hlt. rewrite length_app in Hlt. simpl in Hlt. lia. }
      unfold r0 in Hv. rewrite view_alloc_new in Hv. simplify_eq.
      specialize (Hold r0). specialize (Hold' r0). clear Ho. split.
      * intros m Hm. rewrite appended_via_snoc.
        destruct c as [m' v| |r1 cc r2|?|?]; simpl in Hborn; try done.
        -- destruct Hborn as [-> ->]. rewrite is_touched_touch by done. simpl.
           case_decide; [subst; tauto|].
           split; [by destruct m|]. intros [?|[_ ?]]; [by destruct (Hold m)|by subst].
        -- destruct Hborn as [-> ->].
           split; [by destruct m|]. intros [?|[? _]]; [by destruct (Hold m)|done].
        -- destruct Hborn as (l1 & t1 & l2 & t2 & _ & _ & -> & ->). simpl.
           split; [by destruct m|]. intros [?|[_ ?]]; [by destruct (Hold m)|done].
      * rewrite combined_snoc.
        destruct c as [m' v| |r1 cc r2|?|?]; simpl in Hborn; try done.
        -- destruct Hborn as [-> ->]. split; [|intros; apply no_combinator_part].
           intros _ [?|[_ (? & ? & ? & ?)]]; [by apply Hold'|done].
        -- destruct Hborn as [-> ->]. split; [|intros; constructor].
           intros _ [?|[_ (? & ? & ? & ?)]]; [by apply Hold'|done].
        -- destruct Hborn as (l1 & t1 & l2 & t2 & _ & _ & -> & ->).
           split; [by intros ?%not_no_combinator_combine|].
           intros Hn. destruct Hn. right. eauto.
  - assert (Hv0 : view (store st) r0 = Some (l0, touched s)) by (apply view_Some; eauto).
    split; simpl.
    + intros c' r [Hin|Hin%list_elem_of_singleton]%elem_of_app; rewrite length_insert.
      * by apply Hb in Hin.
      * simplify_eq. by eapply lookup_lt_Some.
    + intros r l t Hv. destruct (decide (r = r0)) as [->|Hne].
      * rewrite view_update_eq in Hv by done. simplify_eq.
        destruct (Ht r0 l0 (touched s) Hv0) as [Ht1 Ht2]. split.
        -- intros m Hm. rewrite appended_via_snoc, is_touched_touch by done; simpl.
           case_decide; [subst; tauto|]. rewrite (Ht1 m Hm).
           split; [tauto|]. intros [?|[_ [_ ?]]]; [done|by subst].
        -- rewrite combined_snoc, no_combinator_snoc, Ht2.
           split; [|tauto]. intros Hn [?|[_ (? & ? & ? & ?)]]; done.
      * rewrite view_update_ne in Hv by done.
        destruct (Ht r l t Hv) as [Ht1 Ht2]. split.
        -- intros m Hm. rewrite appended_via_snoc, (Ht1 m Hm).
           split; [tauto|]. intros [?|[? _]]; [done|]. by simplify_eq.
        -- rewrite combined_snoc, Ht2.
           split; [|tauto]. intros Hn [?|[? _]]; [done|]. by simplify_eq.
Qed.

Lemma run_log_ok cs : log_ok (run cs start).
Proof.
  induction cs as [|c cs IH] using rev_ind; [apply log_ok_start|].
  rewrite run_snoc. apply log_ok_step; [apply run_wf|done].
Qed.

(** On a well-formed store a call whose references the store holds never
    ends [Dangling]. *)
Lemma valid_call_runs h c : wf h → refs_valid h c → (exec c h).1 ≠ Dangling.
Proof.
  intros Hwf Hv. destruct c as [m v| |r1 cc r2|r m v|r]; simpl in *; unfold mbind, M_bind.
  - by rewrite cssSelectorBuilder_call_spec.
  - unfold cssSelectorBuilder.stringify, mbind, M_bind. rewrite constructor_fresh.
    by rewrite (stringify_spec _ _ (Instance_ (length (arrays h)) untouched) []);
      [|apply lookup_snoc|apply lookup_snoc].
  - destruct Hv as [[s1 H1]%lookup_lt_is_Some_2 [s2 H2]%lookup_lt_is_Some_2].
    destruct (wf_array h r1 s1 Hwf H1) as [l1 Hl1].
    destruct (wf_array h r2 s2 Hwf H2) as [l2 Hl2].
    by rewrite (combine_spec h r1 cc r2 s1 l1 s2 l2).
  - apply lookup_lt_is_Some_2 in Hv as [s Hs].
    destruct (wf_array h r s Hwf Hs) as [l Hl].
    rewrite (Selector_call_spec h r m v s l) by done.
    by repeat case_match.
  - apply lookup_lt_is_Some_2 in Hv as [s Hs].
    destruct (wf_array h r s Hwf Hs) as [l Hl].
    by rewrite (stringify_spec h r s l).
Qed.

(** ** Method calls in terms of the view *)

Lemma Selector_call_view h r m v l t :
  view h r = Some (l, t) →
  ∃ s, selectors h !! r = Some s ∧ items s < length (arrays h) ∧ touched s = t ∧
  Selector_call m r v h =
    if is_touched m t then (Throw DuplicateSelectorPartError, h)
    else if existsb (above (method_type m)) l then (Throw SelectorOrderError, h)
    else (Normal r, update h r s (l ++ [part m v]) (touch m t)).
Proof.
  intros (s & Hs & Hl & <-)%view_Some. exists s.
  split_and!; [done|by eapply lookup_lt_Some|done|].
  by apply Selector_call_spec.
Qed.

Lemma errors_differ : DuplicateSelectorPartError ≠ SelectorOrderError.
Proof. discriminate. Qed.

Lemma above_higher_ranked t l : existsb (above t) l = true ↔ higher_ranked t l.
Proof.
  rewrite existsb_exists. unfold higher_ranked, above, js_gt. split.
  - intros (i & Hin%list_elem_of_In & Hi).
    destruct (order (type i)) as [a|] eqn:Ha; [|done].
    destruct (order t) as [b|] eqn:Hb; [|done].
    exists i, a, b. split_and!; [done| |done..|lia].
    intros E. by rewrite E in Ha.
  - intros (i & a & b & Hin%list_elem_of_In & _ & Ha & Hb & Hlt).
    exists i. split; [done|]. rewrite Ha, Hb. lia.
Qed.

(** ** C1: when the order error is raised *)

(** C1, counterexample.  After [element('a').class('x')] the sequence holds
    a class item, whose rank 3 is above the rank 1 of [element]; yet a
    second [element(...)] on that selector does not raise the order error:
    the test of the [touched] flag comes first and raises the duplicate
    error. *)
Lemma C1_duplicate_test_comes_first :
  fragments (store (run session_element_class start)) 0
    = Some [Item t_element "a"; Item t_class ".x"] ∧
  higher_ranked t_element [Item t_element "a"; Item t_class ".x"] ∧
  (Selector.element 0 "b" (store (run session_element_class start))).1
    = Throw DuplicateSelectorPartError ∧
  (Selector.element 0 "b" (store (run session_element_class start))).1
    ≠ Throw SelectorOrderError.
Proof.
  split_and!; [reflexivity| |reflexivity|discriminate].
  exists (Item t_class ".x"), 3%Z, 1%Z.
  split_and!; [apply list_elem_of_In; simpl; auto|done|done|done|lia].
Qed.

(** C1, amended.  A call of an appending method raises the order error
    exactly when its duplicate test does not fire (the method is [class],
    [attr] or [pseudoClass], or its flag is not set) and some item of the
    sequence, combinator items apart, has a rank strictly greater than the
    method's.  In particular [id(...)] on a selector that holds a class item
    and whose [id] flag is not set raises the order error. *)
Theorem C1_order_error_iff h r l t m v :
  view h r = Some (l, t) →
  ((Selector_call m r v h).1 = Throw SelectorOrderError ↔
     is_touched m t = false ∧ higher_ranked (method_type m) l) ∧
  (touched_id t = false → (∃ i, i ∈ l ∧ type i = t_class) →
     Selector.id r v h = (Throw SelectorOrderError, h)).
Proof.
  intros Hv. split.
  - destruct (Selector_call_view h r m v l t Hv) as (s & _ & _ & _ & ->).
    rewrite <- above_higher_ranked.
    destruct (is_touched m t); simpl; [split; [discriminate|intros [? _]; done]|].
    destruct (existsb _ l); simpl; [done|]. split; [discriminate|intros [_ ?]; done].
  - intros Ht (i & Hin & Hi).
    destruct (Selector_call_view h r m_id v l t Hv) as (s & _ & _ & _ & E).
    simpl in E. rewrite E, Ht.
    assert (existsb (above t_id) l = true) as ->; [|done].
    apply existsb_exists. exists i. split; [by apply list_elem_of_In|].
    unfold above. by rewrite Hi.
Qed.

Lemma C1_order_error_iff_witness :
  (Selector_call m_id 0 "main" (store (run [Facade m_class "x"] start))).1
    = Throw SelectorOrderError ↔
  is_touched m_id untouched = false ∧ higher_ranked (method_type m_id) [Item t_class ".x"].
Proof.
  apply (C1_order_error_iff (store (run [Facade m_class "x"] start)) 0
           [Item t_class ".x"] untouched m_id "main").
  reflexivity.
Defined.

(** ** C2: the rank order *)

(** C2, counterexample.  The selector that [combine] returns holds the
    ranks 1, 2, 1: an element item after an id item. *)
Lemma C2_combine_breaks_rank_order :
  fragments (store (run session_combine_ranks start)) 2
    = Some [Item t_element "div"; Item t_id "#main"; Item t_combinator " + ";
            Item t_element "table"] ∧
  ranks [Item t_element "div"; Item t_id "#main"; Item t_combinator " + ";
         Item t_element "table"] = [1; 2; 1]%Z ∧
  ¬ nondecreasing [1; 2; 1]%Z.
Proof.
  split_and!; [reflexivity|reflexivity|].
  intros H. specialize (H 1 2 2%Z 1%Z). simpl in H.
  assert (2 ≤ 1)%Z; [apply H; [lia|done..]|lia].
Qed.

(** C2, amended.  Whatever calls were made, in every selector each stretch
    of items between combinator items has non-decreasing ranks, and so has
    the whole sequence of a selector that [combine] did not return; the
    sequence of a selector made by [combine] may step down at a combinator
    item. *)
Theorem C2_rank_order_between_combinators cs r l :
  fragments (store (run cs start)) r = Some l →
  Forall nondecreasing (runs l) ∧
  (¬ combined (log (run cs start)) r → nondecreasing (ranks l)).
Proof.
  intros [t Hv]%fragments_view.
  pose proof (built_runs l t (run_built cs r l t Hv)) as Hruns.
  split; [done|]. intros Hc.
  destruct (run_log_ok cs) as [_ Hlog]. destruct (Hlog r l t Hv) as [_ Hnc].
  apply Hnc in Hc. rewrite (runs_no_combinator l Hc) in Hruns.
  apply Forall_cons in Hruns as [Hruns _]. exact Hruns.
Qed.

Lemma C2_rank_order_between_combinators_witness :
  Forall nondecreasing
    (runs [Item t_element "div"; Item t_id "#main"; Item t_combinator " + ";
           Item t_element "table"]).
Proof.
  apply (C2_rank_order_between_combinators session_combine_ranks 2).
  reflexivity.
Defined.

(** ** C3: element, id and pseudo-element at most once *)

(** C3, counterexample.  The selector that [combine] returns holds two
    element items. *)
Lemma C3_combine_repeats_element :
  fragments (store (run session_combine_elements start)) 2
    = Some [Item t_element "div"; Item t_combinator "   "; Item t_element "table"] ∧
  occurrences t_element
    [Item t_element "div"; Item t_combinator "   "; Item t_element "table"] = 2 ∧
  ¬ (occurrences t_element
       [Item t_element "div"; Item t_combinator "   "; Item t_element "table"] ≤ 1)%nat.
Proof. split_and!; [reflexivity|reflexivity|]. vm_compute. lia. Qed.

(** C3, amended.  Whatever calls were made, in every selector that
    [combine] did not return, element, id and pseudo-element items occur at
    most once each. *)
Theorem C3_once_without_combine cs r l :
  fragments (store (run cs start)) r = Some l →
  ¬ combined (log (run cs start)) r →
  (occurrences t_element l ≤ 1)%nat ∧ (occurrences t_id l ≤ 1)%nat ∧
  (occurrences t_pseudoElement l ≤ 1)%nat.
Proof.
  intros [t Hv]%fragments_view Hc.
  destruct (run_log_ok cs) as [_ Hlog]. destruct (Hlog r l t Hv) as [_ Hnc].
  apply Hnc in Hc.
  pose proof (built_occurrences l t (run_built cs r l t Hv) Hc) as Hocc.
  pose proof (Hocc m_element eq_refl) as H1.
  pose proof (Hocc m_id eq_refl) as H2.
  pose proof (Hocc m_pseudoElement eq_refl) as H3.
  simpl in *. rewrite H1, H2, H3. by repeat case_match; repeat split; lia.
Qed.

Lemma C3_once_without_combine_witness :
  (occurrences t_element [Item t_element "a"; Item t_class ".x"] ≤ 1)%nat ∧
  (occurrences t_id [Item t_element "a"; Item t_class ".x"] ≤ 1)%nat ∧
  (occurrences t_pseudoElement [Item t_element "a"; Item t_class ".x"] ≤ 1)%nat.
Proof.
  apply (C3_once_without_combine session_element_class 0).
  - reflexivity.
  - intros (r1 & c & r2 & H). vm_compute in H.
    repeat (apply elem_of_cons in H as [H|H]; [discriminate|]).
    by apply elem_of_nil in H.
Defined.

(** ** C4: when the duplicate error is raised *)

(** A method called on an instance whose array the store lacks: only the
    flag test is reached. *)
Lemma Selector_call_no_array h r m v s :
  selectors h !! r = Some s → arrays h !! items s = None →
  Selector_call m r v h =
    if is_touched m (touched s) then (Throw DuplicateSelectorPartError, h)
    else (Dangling, h).
Proof.
  intros Hs Hl.
  destruct m; simpl;
    unfold Selector.element, Selector.id, Selector.class, Selector.attr,
      Selector.pseudoClass, Selector.pseudoElement, Selector.checkOrder,
      mbind, M_bind, get_instance, get_array;
    rewrite Hs; simpl; rewrite ?Hl; try done;
    (match goal with |- context [if ?b then _ else _] => destruct b end; [done|]);
    by rewrite Hs, Hl.
Qed.

Lemma never_duplicate_error h r m v :
  once_only m = false → (Selector_call m r v h).1 ≠ Throw DuplicateSelectorPartError.
Proof.
  intros Hm.
  destruct (selectors h !! r) as [s|] eqn:Hs;
    [destruct (arrays h !! items s) as [l|] eqn:Hl|].
  - rewrite (Selector_call_spec h r m v s l) by done.
    replace (is_touched m (touched s)) with false by (by destruct m).
    by destruct (existsb _ l).
  - rewrite (Selector_call_no_array h r m v s) by done.
    by replace (is_touched m (touched s)) with false by (by destruct m).
  - by rewrite Selector_call_dangling.
Qed.

(** C4.  Whatever calls were made before, [element], [id] or
    [pseudoElement] called on a selector raises the duplicate error exactly
    when an earlier call of that same method on that same selector has
    appended its item (directly, or through the facade function that made
    the selector); [class], [attr] and [pseudoClass] never raise it; and
    [class('x').class('y').stringify()] is ['.x.y']. *)
Theorem C4_duplicate_error_iff cs r m v :
  (once_only m = true →
   (Selector_call m r v (store (run cs start))).1 = Throw DuplicateSelectorPartError ↔
   appended_via (log (run cs start)) r m) ∧
  (once_only m = false →
   ∀ h, (Selector_call m r v h).1 ≠ Throw DuplicateSelectorPartError) ∧
  ((r ← cssSelectorBuilder.class "x"; r ← Selector.class r "y";
    Selector.stringify r) empty_heap).1 = Normal ".x.y".
Proof.
  split_and!; [|intros Hm h; by apply never_duplicate_error|reflexivity].
  intros Hm. destruct (run_log_ok cs) as [Hb Hlog].
  destruct (view (store (run cs start)) r) as [[l t]|] eqn:Hv.
  - destruct (Hlog r l t Hv) as [Ht _]. rewrite <- (Ht m Hm).
    destruct (Selector_call_view _ r m v l t Hv) as (s & _ & _ & _ & ->).
    destruct (is_touched m t); [done|].
    destruct (existsb _ l); simpl; split; discriminate.
  - assert (selectors (store (run cs start)) !! r = None) as Hr.
    { destruct (selectors (store (run cs start)) !! r) as [s|] eqn:Hs; [|done].
      assert (is_Some (view (store (run cs start)) r)) as [? ?]; [|congruence].
      apply view_is_Some; [apply run_wf|]. by eapply lookup_lt_Some. }
    rewrite Selector_call_dangling by done. simpl. split; [discriminate|].
    intros (c & Hin & _). apply Hb in Hin. apply lookup_ge_None in Hr. lia.
Qed.

Lemma C4_duplicate_error_iff_witness :
  (Selector_call m_element 0 "b" (store (run [Facade m_element "a"] start))).1
    = Throw DuplicateSelectorPartError ↔
  appended_via (log (run [Facade m_element "a"] start)) 0 m_element.
Proof.
  apply (C4_duplicate_error_iff [Facade m_element "a"] 0 m_element "b").
  reflexivity.
Defined.

(** ** C5: a failed append changes nothing *)

(** C5.  When an appending method raises an error, it is one of the two
    errors and the store after the call is the store before it: the item
    sequence and the flags of the selector, and of every other selector,
    are what they were. *)
Theorem C5_failed_append_changes_nothing h r m v e h' :
  Selector_call m r v h = (Throw e, h') →
  h' = h ∧ fragments h' r = fragments h r ∧ flags h' r = flags h r ∧
  (e = DuplicateSelectorPartError ∨ e = SelectorOrderError).
Proof.
  intros Hcall.
  assert (h' = h ∧ (e = DuplicateSelectorPartError ∨ e = SelectorOrderError)) as [-> ?];
    [|done].
  destruct (selectors h !! r) as [s|] eqn:Hs;
    [destruct (arrays h !! items s) as [l|] eqn:Hl|].
  - rewrite (Selector_call_spec h r m v s l) in Hcall by done.
    destruct (is_touched m (touched s)); [simplify_eq; auto|].
    destruct (existsb _ l); simplify_eq; auto.
  - rewrite (Selector_call_no_array h r m v s) in Hcall by done.
    destruct (is_touched m (touched s)); simplify_eq; auto.
  - rewrite Selector_call_dangling in Hcall by done. simplify_eq.
Qed.

Lemma C5_failed_append_changes_nothing_witness :
  store (run [Facade m_class "x"] start) = store (run [Facade m_class "x"] start) ∧
  fragments (store (run [Facade m_class "x"] start)) 0
    = fragments (store (run [Facade m_class "x"] start)) 0 ∧
  flags (store (run [Facade m_class "x"] start)) 0
    = flags (store (run [Facade m_class "x"] start)) 0 ∧
  (SelectorOrderError = DuplicateSelectorPartError ∨ SelectorOrderError = SelectorOrderError).
Proof.
  apply (C5_failed_append_changes_nothing
           (store (run [Facade m_class "x"] start)) 0 m_id "main").
  reflexivity.
Defined.

(** ** C6: what combine returns *)

(** C6.  For any two selectors, whatever their sequences, [combine] returns
    normally (no test is made), and what it returns is an instance the store
    did not hold, whose sequence is the items of the first operand, then one
    combinator item with the token between two spaces, then the items of
    the second operand, and whose flags are all unset.  And
    [combine(element('div').id('main'), '+', element('table').id('data'))]
    stringifies to ['div#main + table#data']. *)
Theorem C6_combine_concatenates h r1 c r2 l1 l2 :
  fragments h r1 = Some l1 → fragments h r2 = Some l2 →
  (∃ r h', cssSelectorBuilder.combine r1 c r2 h = (Normal r, h') ∧
     selectors h !! r = None ∧
     fragments h' r = Some (l1 ++ [Item t_combinator (" " +:+ c +:+ " ")] ++ l2) ∧
     flags h' r = Some (Touched false false false)) ∧
  ((a ← cssSelectorBuilder.element "div"; a ← Selector.id a "main";
    b ← cssSelectorBuilder.element "table"; b ← Selector.id b "data";
    r ← cssSelectorBuilder.combine a "+" b; Selector.stringify r) empty_heap).1
    = Normal "div#main + table#data".
Proof.
  intros [t1 (s1 & Hs1 & Hl1 & _)%view_Some]%fragments_view
         [t2 (s2 & Hs2 & Hl2 & _)%view_Some]%fragments_view.
  split; [|reflexivity].
  eexists _, _. split; [by eapply combine_spec|].
  split_and!.
  - by apply lookup_ge_None.
  - eapply view_fragments. apply (view_alloc_new h _ untouched).
  - unfold flags; simpl. by rewrite lookup_snoc.
Qed.

Lemma C6_combine_concatenates_witness :
  ∃ r h', cssSelectorBuilder.combine 0 "+" 1
            (store (run [Facade m_id "a"; Facade m_element "b"] start)) = (Normal r, h') ∧
    selectors (store (run [Facade m_id "a"; Facade m_element "b"] start)) !! r = None ∧
    fragments h' r
      = Some ([Item t_id "#a"] ++ [Item t_combinator (" " +:+ "+" +:+ " ")]
              ++ [Item t_element "b"]) ∧
    flags h' r = Some (Touched false false false).
Proof.
  apply (C6_combine_concatenates
           (store (run [Facade m_id "a"; Facade m_element "b"] start)) 0 "+" 1);
    reflexivity.
Defined.

(** ** C7: combine shares nothing with its operands *)

Lemma change_method_frame h r m v o h' r' :
  wf h → change h (Method r m v) o h' → r' ≠ r → view h' r' = view h r'.
Proof.
  intros Hwf Hc Hne. remember (Method r m v) as c eqn:Ec.
  destruct Hc as [o _|l t Hb|r0 m0 v0 s l -> Hs Hl Ht Hord]; [done| |].
  - subst c. done.
  - simplify_eq. by apply view_update_ne.
Qed.

Lemma Selector_call_frame h r m v :
  wf h →
  wf (Selector_call m r v h).2 ∧
  ∀ r', r' ≠ r → view (Selector_call m r v h).2 r' = view h r'.
Proof.
  intros Hwf. pose proof (exec_change (Method r m v) h Hwf) as Hc.
  assert (E : (exec (Method r m v) h).2 = (Selector_call m r v h).2).
  { simpl. unfold mbind, M_bind. by destruct (Selector_call m r v h) as [[] ?]. }
  rewrite E in Hc. split; [by eapply change_wf|].
  intros r' Hne. by eapply change_method_frame.
Qed.

Lemma method_calls_frame ops h r' :
  wf h → Forall (λ op, op.1.1 ≠ r') ops →
  wf (method_calls ops h) ∧ view (method_calls ops h) r' = view h r'.
Proof.
  revert h. induction ops as [|[[r m] v] ops IH]; intros h Hwf Hall; [done|].
  apply Forall_cons in Hall as [Hne Hall]. simpl in Hne.
  destruct (Selector_call_frame h r m v Hwf) as [Hwf' Hframe].
  destruct (IH _ Hwf' Hall) as [Hwf'' Hv].
  change (method_calls ((r, m, v) :: ops) h)
    with (method_calls ops (Selector_call m r v h).2).
  split; [done|]. rewrite Hv. apply Hframe. congruence.
Qed.

Lemma stringify_fragments h r :
  (Selector.stringify r h).1 =
    match fragments h r with
    | Some l => Normal (String.concat "" (map value l))
    | None => Dangling
    end.
Proof.
  unfold Selector.stringify, fragments, mbind, M_bind, get_instance, get_array.
  destruct (selectors h !! r) as [s|]; simpl; [|done].
  by destruct (arrays h !! items s).
Qed.

(** C7.  In every store that calls of the module can produce, the selector
    that [combine] returns has an array of its own.  Method calls on it, however many, leave the sequence and the
    [stringify()] output of both operands as they were before the
    combination; method calls on the operands after the combination,
    however many, leave its sequence and its [stringify()] output as
    [combine] made them. *)
Theorem C7_combine_shares_nothing h r1 c r2 :
  reachable h → is_Some (fragments h r1) → is_Some (fragments h r2) →
  ∃ r h1, cssSelectorBuilder.combine r1 c r2 h = (Normal r, h1) ∧
    (∀ ops, Forall (λ op, op.1.1 = r) ops →
       fragments (method_calls ops h1) r1 = fragments h r1 ∧
       fragments (method_calls ops h1) r2 = fragments h r2 ∧
       (Selector.stringify r1 (method_calls ops h1)).1 = (Selector.stringify r1 h).1 ∧
       (Selector.stringify r2 (method_calls ops h1)).1 = (Selector.stringify r2 h).1) ∧
    (∀ ops, Forall (λ op, op.1.1 = r1 ∨ op.1.1 = r2) ops →
       fragments (method_calls ops h1) r = fragments h1 r ∧
       (Selector.stringify r (method_calls ops h1)).1 = (Selector.stringify r h1).1).
Proof.
  intros Hwf%reachable_wf [l1 [t1 Hv1]%fragments_view] [l2 [t2 Hv2]%fragments_view].
  assert (Hr1 : r1 < length (selectors h)) by (apply view_is_Some; [done|by rewrite Hv1]).
  assert (Hr2 : r2 < length (selectors h)) by (apply view_is_Some; [done|by rewrite Hv2]).
  pose proof Hv1 as (s1 & Hs1 & Hl1 & _)%view_Some.
  pose proof Hv2 as (s2 & Hs2 & Hl2 & _)%view_Some.
  eexists _, _. split; [by eapply combine_spec|].
  set (h1 := Heap _ _).
  assert (Hwf1 : wf h1) by (by apply (wf_alloc h _ untouched)).
  assert (Hold : ∀ r', r' < length (selectors h) → view h1 r' = view h r').
  { intros r' Hr'. by apply (view_alloc_old h _ untouched). }
  assert (Hfr1 : ∀ ha hb r', view ha r' = view hb r' →
            fragments ha r' = fragments hb r' ∧
            (Selector.stringify r' ha).1 = (Selector.stringify r' hb).1).
  { intros ha hb r' Hv. assert (fragments ha r' = fragments hb r') as Hf.
    { unfold fragments, view in *.
      destruct (selectors ha !! r') as [s|], (selectors hb !! r') as [s'|]; simpl in *;
        try destruct (arrays ha !! items s); try destruct (arrays hb !! items s');
        simpl in *; by simplify_eq. }
    by rewrite !stringify_fragments, Hf. }
  pose proof (λ h2, Hfr1 h2 h) as Hfr.
  split.
  - intros ops Hops.
    assert (∀ r', r' < length (selectors h) →
              view (method_calls ops h1) r' = view h r') as Hsame.
    { intros r' Hr'. rewrite <- (Hold r' Hr').
      apply method_calls_frame; [done|].
      eapply Forall_impl; [exact Hops|]. intros op ->. lia. }
    destruct (Hfr _ r1 (Hsame r1 Hr1)), (Hfr _ r2 (Hsame r2 Hr2)). done.
  - intros ops Hops.
    assert (view (method_calls ops h1) (length (selectors h))
              = view h1 (length (selectors h))) as Hsame.
    { apply method_calls_frame; [done|].
      eapply Forall_impl; [exact Hops|]. intros op [->| ->]; lia. }
    destruct (Hfr1 _ _ _ Hsame). done.
Qed.

Lemma C7_combine_shares_nothing_witness :
  ∃ r h1,
    cssSelectorBuilder.combine 0 "+" 1
      (store (run [Facade m_id "a"; Facade m_element "b"] start)) = (Normal r, h1) ∧
    (∀ ops, Forall (λ op, op.1.1 = r) ops →
       fragments (method_calls ops h1) 0
         = fragments (store (run [Facade m_id "a"; Facade m_element "b"] start)) 0 ∧
       fragments (method_calls ops h1) 1
         = fragments (store (run [Facade m_id "a"; Facade m_element "b"] start)) 1 ∧
       (Selector.stringify 0 (method_calls ops h1)).1
         = (Selector.stringify 0
              (store (run [Facade m_id "a"; Facade m_element "b"] start))).1 ∧
       (Selector.stringify 1 (method_calls ops h1)).1
         = (Selector.stringify 1
              (store (run [Facade m_id "a"; Facade m_element "b"] start))).1) ∧
    (∀ ops, Forall (λ op, op.1.1 = 0 ∨ op.1.1 = 1) ops →
       fragments (method_calls ops h1) r = fragments h1 r ∧
       (Selector.stringify r (method_calls ops h1)).1 = (Selector.stringify r h1).1).
Proof.
  apply (C7_combine_shares_nothing
           (store (run [Facade m_id "a"; Facade m_element "b"] start)) 0 "+" 1).
  - by exists [Facade m_id "a"; Facade m_element "b"].
  - by eexists.
  - by eexists.
Defined.

(** ** C8: stringify *)

Lemma append_empty_r (s : string) : s +:+ "" = s.
Proof.
  induction s as [|a s IH]; [done|].
  change (String a (s +:+ "") = String a s). by rewrite IH.
Qed.

Lemma join_text l : String.concat "" (map value l) = text l.
Proof.
  induction l as [|i l IH]; [done|].
  change (text (i :: l)) with (value i +:+ text l). rewrite <- IH.
  destruct l as [|j l]; [symmetry; apply append_empty_r|done].
Qed.

(** C8.  [stringify()] returns the values of the items of the selector put
    one after the other in sequence order, with nothing between them; it
    leaves the store as it was, so a second call returns the same string;
    on a selector without items it returns the empty string, and so does
    the [stringify()] of the facade, which makes such a selector. *)
Theorem C8_stringify_concatenates h r l :
  fragments h r = Some l →
  Selector.stringify r h = (Normal (text l), h) ∧
  (s1 ← Selector.stringify r; s2 ← Selector.stringify r; mret (s1, s2)) h
    = (Normal (text l, text l), h) ∧
  (l = [] → Selector.stringify r h = (Normal "", h)) ∧
  (∀ h0, cssSelectorBuilder.stringify h0 = (Normal "", alloc h0 [] untouched)).
Proof.
  intros [t (s & Hs & Hl & _)%view_Some]%fragments_view.
  assert (E : Selector.stringify r h = (Normal (text l), h)).
  { rewrite (stringify_spec h r s l) by done. by rewrite join_text. }
  split_and!.
  - done.
  - unfold mbind, M_bind. by rewrite !E.
  - intros ->. by rewrite E.
  - intros h0. unfold cssSelectorBuilder.stringify, mbind, M_bind.
    rewrite constructor_fresh.
    by rewrite (stringify_spec _ _ (Instance_ (length (arrays h0)) untouched) []);
      [|apply lookup_snoc|apply lookup_snoc].
Qed.

Lemma C8_stringify_concatenates_witness :
  Selector.stringify 0 (store (run session_element_class start))
    = (Normal "a.x", store (run session_element_class start)).
Proof.
  apply (C8_stringify_concatenates (store (run session_element_class start)) 0
           [Item t_element "a"; Item t_class ".x"]).
  reflexivity.
Defined.

(** ** C10: getArea and the latest construction *)

(** C10.  After [new Rectangle(w, h)], [getArea()] of every object made so
    far, the new one and the older ones alike, returns [w * h], while the
    older objects keep the [width] and [height] they were made with.  So
    after [r1 = new Rectangle(10,20)] and [r2 = new Rectangle(3,4)],
    [r1.getArea()] is 12 and [r1.width], [r1.height] are still 10 and 20. *)
Theorem C10_getArea_follows_latest_construction {number : Type}
    (mul : number → number → number) (s : Rectangle_heap number) (w h : number)
    (r : nat) (o : Rectangle_object number) :
  objects (Rectangle w h s).2 !! r = Some o →
  getArea mul r (Rectangle w h s).2 = Some (mul w h) ∧
  (r < length (objects s) → objects s !! r = Some o) ∧
  (let s1 := (Rectangle 10 20 (Rectangle_heap_ [] None)).2 in
   let r1 := (Rectangle 10 20 (Rectangle_heap_ [] None)).1 in
   let s2 := (Rectangle 3 4 s1).2 in
   getArea Z.mul r1 s1 = Some 200 ∧
   getArea Z.mul r1 s2 = Some 12 ∧
   objects s2 !! r1 = Some (Rectangle_ 10 20))%Z.
Proof.
  intros Hr. split_and!.
  - unfold getArea. by rewrite Hr.
  - intros Hlt. simpl in Hr. by rewrite lookup_app_l in Hr.
  - done.
Qed.

Lemma C10_getArea_follows_latest_construction_witness :
  getArea Z.mul 0
    (Rectangle 3%Z 4%Z (Rectangle 10%Z 20%Z (Rectangle_heap_ [] None)).2).2
    = Some (3 * 4)%Z.
Proof.
  apply (C10_getArea_follows_latest_construction Z.mul
           (Rectangle 10%Z 20%Z (Rectangle_heap_ [] None)).2 3%Z 4%Z 0
           (Rectangle_ 10%Z 20%Z)).
  reflexivity.
Defined.

(** * Further properties of the selector builder *)

(** ** A facade call *)

Lemma text_app l1 l2 : text (l1 ++ l2) = text l1 +:+ text l2.
Proof.
  induction l1 as [|i l1 IH]; [done|].
  change (text ((i :: l1) ++ l2)) with (value i +:+ text (l1 ++ l2)).
  change (text (i :: l1)) with (value i +:+ text l1).
  rewrite IH. generalize (value i) (text l1) (text l2). clear.
  intros a b c. induction a as [|x a IHa]; [done|].
  change (String x (a +:+ b +:+ c) = String x ((a +:+ b) +:+ c)). by rewrite IHa.
Qed.

Lemma text_singleton i : text [i] = value i.
Proof. apply append_empty_r. Qed.

Lemma stringify_text h r l :
  fragments h r = Some l → Selector.stringify r h = (Normal (text l), h).
Proof.
  intros [t (s & Hs & Hl & _)%view_Some]%fragments_view.
  rewrite (stringify_spec h r s l) by done. by rewrite join_text.
Qed.

(** X1.  Each of the six functions of the facade returns normally on every
    store; what it returns is an instance the store did not hold, whose
    sequence is the one formatted item, whose flags are unset but the one of
    the method, and whose [stringify()] is the formatted text. *)
Theorem X1_facade_makes_a_new_selector h m v :
  ∃ r h', cssSelectorBuilder_call m v h = (Normal r, h') ∧
    selectors h !! r = None ∧
    fragments h' r = Some [part m v] ∧
    flags h' r = Some (touch m (Touched false false false)) ∧
    Selector.stringify r h' = (Normal (value (part m v)), h').
Proof.
  eexists _, _. split; [apply cssSelectorBuilder_call_spec|].
  assert (Hf : fragments (alloc h [part m v] (touch m untouched)) (length (selectors h))
               = Some [part m v]).
  { eapply view_fragments. apply view_alloc_new. }
  split_and!.
  - by apply lookup_ge_None.
  - exact Hf.
  - unfold flags; simpl. by rewrite lookup_snoc.
  - rewrite <- text_singleton. by apply stringify_text.
Qed.

(** ** A method call that returns *)

(** X2.  When an appending method returns, it returns the instance it was
    called on; no instance was made; the sequence is what it was with the
    formatted item put at its end, and [stringify()] is the text it gave
    before followed by the formatted text. *)
Theorem X2_append_extends_at_the_end h r l m v r' h' :
  fragments h r = Some l →
  Selector_call m r v h = (Normal r', h') →
  r' = r ∧
  length (selectors h') = length (selectors h) ∧
  length (arrays h') = length (arrays h) ∧
  fragments h' r = Some (l ++ [part m v]) ∧
  Selector.stringify r h = (Normal (text l), h) ∧
  Selector.stringify r h' = (Normal (text l +:+ value (part m v)), h').
Proof.
  intros Hf Hcall. pose proof Hf as [t (s & Hs & Hl & _)%view_Some]%fragments_view.
  rewrite (Selector_call_spec h r m v s l) in Hcall by done.
  destruct (is_touched m (touched s)); [done|].
  destruct (existsb _ l); [done|]. injection Hcall as <- <-.
  set (h1 := Heap _ _).
  assert (Hf' : fragments h1 r = Some (l ++ [part m v])).
  { unfold fragments, h1; simpl.
    rewrite list_lookup_insert_eq by (by eapply lookup_lt_Some); simpl.
    by rewrite list_lookup_insert_eq by (by eapply lookup_lt_Some). }
  split_and!; [done|apply length_insert|apply length_insert|done|by apply stringify_text|].
  rewrite (stringify_text h1 r _ Hf'). by rewrite text_app, text_singleton.
Qed.

Lemma X2_append_extends_at_the_end_witness :
  0 = 0 ∧
  length (selectors (Selector_call m_class 0 "x" (store (run [Facade m_id "a"] start))).2)
    = length (selectors (store (run [Facade m_id "a"] start))) ∧
  length (arrays (Selector_call m_class 0 "x" (store (run [Facade m_id "a"] start))).2)
    = length (arrays (store (run [Facade m_id "a"] start))) ∧
  fragments (Selector_call m_class 0 "x" (store (run [Facade m_id "a"] start))).2 0
    = Some ([Item t_id "#a"] ++ [part m_class "x"]) ∧
  Selector.stringify 0 (store (run [Facade m_id "a"] start))
    = (Normal (text [Item t_id "#a"]), store (run [Facade m_id "a"] start)) ∧
  Selector.stringify 0 (Selector_call m_class 0 "x" (store (run [Facade m_id "a"] start))).2
    = (Normal (text [Item t_id "#a"] +:+ value (part m_class "x")),
       (Selector_call m_class 0 "x" (store (run [Facade m_id "a"] start))).2).
Proof.
  apply (X2_append_extends_at_the_end (store (run [Facade m_id "a"] start)) 0
           [Item t_id "#a"] m_class "x"); reflexivity.
Defined.

(** ** Chains of calls *)

Lemma ranks_app l1 l2 : ranks (l1 ++ l2) = ranks l1 ++ ranks l2.
Proof. apply omap_app. Qed.

Lemma ranks_part m v : ranks [part m v] = [rank m].
Proof. by destruct m. Qed.

Lemma order_rank m : order (method_type m) = Some (rank m).
Proof. by destruct m. Qed.

Lemma no_combinator_parts ops : no_combinator (parts ops).
Proof.
  induction ops as [|[m v] ops IH]; [constructor|].
  constructor; [by destruct m|done].
Qed.

Lemma built_in_order l t : built l t → no_combinator l → in_order l.
Proof.
  intros Hb Hnc. split.
  - pose proof (built_runs l t Hb) as Hruns.
    rewrite (runs_no_combinator l Hnc) in Hruns.
    apply Forall_cons in Hruns as [Hruns _]. exact Hruns.
  - pose proof (built_occurrences l t Hb Hnc) as Hocc.
    pose proof (Hocc m_element eq_refl) as H1.
    pose proof (Hocc m_id eq_refl) as H2.
    pose proof (Hocc m_pseudoElement eq_refl) as H3.
    simpl in *. rewrite H1, H2, H3. by repeat case_match; repeat split; lia.
Qed.

(** In a sequence in order, the item at a place is not outranked by what
    comes before it, and, when it may come once, is not there before. *)
Lemma in_order_next l t m v rest :
  built l t → no_combinator l → in_order (l ++ part m v :: rest) →
  is_touched m t = false ∧ existsb (above (method_type m)) l = false.
Proof.
  intros Hb Hnc (Hnd & He & Hi & Hp). split.
  - destruct (once_only m) eqn:Hm; [|by destruct m].
    pose proof (built_occurrences l t Hb Hnc m Hm) as Hocc.
    destruct (is_touched m t); [|done].
    rewrite !occurrences_app in He, Hi, Hp.
    change (part m v :: rest) with ([part m v] ++ rest) in He, Hi, Hp.
    rewrite !occurrences_app in He, Hi, Hp.
    pose proof (occurrences_part m m v) as Hpart. rewrite decide_True in Hpart by done.
    destruct m; simpl in *; try done; lia.
  - apply (not_above_ranks _ (rank m)); [apply order_rank|].
    apply Forall_forall. intros a [i Hi']%list_elem_of_lookup_1.
    change (part m v :: rest) with ([part m v] ++ rest) in Hnd.
    rewrite !ranks_app, ranks_part in Hnd.
    apply (Hnd i (length (ranks l)) a (rank m)).
    + by eapply lookup_lt_Some.
    + by apply lookup_app_l_Some.
    + rewrite lookup_app_r by lia. by rewrite Nat.sub_diag.
Qed.

Lemma calls_on_in_order ops h r l t :
  wf h → view h r = Some (l, t) → built l t → no_combinator l →
  in_order (l ++ parts ops) →
  ∃ h' t', calls_on r ops h = (Normal r, h') ∧ view h' r = Some (l ++ parts ops, t').
Proof.
  revert h l t. induction ops as [|[m v] ops IH]; intros h l t Hwf Hv Hb Hnc Hord.
  - exists h, t. simpl. by rewrite app_nil_r.
  - change (parts ((m, v) :: ops)) with (part m v :: parts ops) in *.
    destruct (in_order_next l t m v (parts ops) Hb Hnc Hord) as [Ht Ho].
    destruct (Selector_call_view h r m v l t Hv) as (s & Hs & _ & _ & Hcall).
    rewrite Ht, Ho in Hcall.
    destruct (IH (update h r s (l ++ [part m v]) (touch m t)) (l ++ [part m v]) (touch m t))
      as (h' & t' & Hrest & Hv').
    + by apply wf_update.
    + by apply view_update_eq.
    + by constructor.
    + by apply no_combinator_snoc.
    + by rewrite <- app_assoc.
    + exists h', t'. simpl. unfold mbind, M_bind. rewrite Hcall, Hrest.
      split; [done|]. by rewrite <- app_assoc in Hv'.
Qed.

Lemma calls_on_returns ops h r l t r' h' :
  wf h → view h r = Some (l, t) → built l t →
  calls_on r ops h = (Normal r', h') →
  r' = r ∧ ∃ t', view h' r = Some (l ++ parts ops, t') ∧ built (l ++ parts ops) t'.
Proof.
  revert h l t. induction ops as [|[m v] ops IH]; intros h l t Hwf Hv Hb Hcall.
  - simpl in Hcall. injection Hcall as <- <-. split; [done|].
    exists t. by rewrite app_nil_r.
  - change (parts ((m, v) :: ops)) with (part m v :: parts ops).
    destruct (Selector_call_view h r m v l t Hv) as (s & Hs & _ & _ & Hm).
    simpl in Hcall. unfold mbind, M_bind in Hcall. rewrite Hm in Hcall.
    destruct (is_touched m t) eqn:Ht; [done|].
    destruct (existsb _ l) eqn:Ho; [done|].
    destruct (IH (update h r s (l ++ [part m v]) (touch m t)) (l ++ [part m v]) (touch m t))
      as (-> & t' & Hv' & Hb').
    + by apply wf_update.
    + by apply view_update_eq.
    + by constructor.
    + exact Hcall.
    + split; [done|]. exists t'. by rewrite <- app_assoc in Hv', Hb'.
Qed.

(** X3.  In every store that calls of the module can produce, a chain
    [cssSelectorBuilder.m0(v0).m1(v1)...] returns exactly when the parts
    come in non-decreasing rank order and element, id and pseudo-element
    come at most once; what it returns then holds the formatted items in
    call order, and its [stringify()] is their texts one after the other. *)
Theorem X3_chain_returns_iff_in_order h m0 v0 ops :
  reachable h →
  ((∃ r h', chain m0 v0 ops h = (Normal r, h')) ↔ in_order (parts ((m0, v0) :: ops))) ∧
  (∀ r h', chain m0 v0 ops h = (Normal r, h') →
     fragments h' r = Some (parts ((m0, v0) :: ops)) ∧
     Selector.stringify r h' = (Normal (text (parts ((m0, v0) :: ops))), h')).
Proof.
  intros Hwf%reachable_wf.
  set (h1 := alloc h [part m0 v0] (touch m0 untouched)).
  set (r0 := length (selectors h)).
  assert (Hchain : chain m0 v0 ops h = calls_on r0 ops h1).
  { unfold chain, mbind, M_bind. by rewrite cssSelectorBuilder_call_spec. }
  assert (Hwf1 : wf h1) by (by apply wf_alloc).
  assert (Hv1 : view h1 r0 = Some ([part m0 v0], touch m0 untouched))
    by apply view_alloc_new.
  assert (Hb1 : built [part m0 v0] (touch m0 untouched)) by constructor.
  change (parts ((m0, v0) :: ops)) with ([part m0 v0] ++ parts ops).
  rewrite Hchain. split; [split|].
  - intros (r & h' & Hcall).
    destruct (calls_on_returns ops h1 r0 _ _ r h' Hwf1 Hv1 Hb1 Hcall)
      as (_ & t' & _ & Hb').
    eapply built_in_order; [done|].
    apply Forall_app. split; [apply no_combinator_part|apply no_combinator_parts].
  - intros Hord.
    destruct (calls_on_in_order ops h1 r0 _ _ Hwf1 Hv1 Hb1 (no_combinator_part m0 v0) Hord)
      as (h' & t' & Hcall & _). eauto.
  - intros r h' Hcall.
    destruct (calls_on_returns ops h1 r0 _ _ r h' Hwf1 Hv1 Hb1 Hcall)
      as (-> & t' & Hv' & _).
    apply view_fragments in Hv'. split; [done|]. by apply stringify_text.
Qed.

Lemma X3_chain_returns_iff_in_order_witness :
  (∃ r h', chain m_element "a" [(m_id, "main"); (m_class, "x"); (m_class, "y")] empty_heap
           = (Normal r, h')) ↔
  in_order (parts [(m_element, "a"); (m_id, "main"); (m_class, "x"); (m_class, "y")]).
Proof.
  apply (X3_chain_returns_iff_in_order empty_heap m_element "a"
           [(m_id, "main"); (m_class, "x"); (m_class, "y")]).
  by exists [].
Defined.

(** ** Selectors are independent of each other *)

(** X4.  In every store that calls of the module can produce, a call keeps
    every instance of the store, and leaves the sequence and the flags of
    each of them as they were, but for the instance an appending method is
    called on. *)
Theorem X4_a_call_touches_one_selector_at_most h c r :
  reachable h → r < length (selectors h) →
  is_Some (view (exec c h).2 r) ∧
  ((∀ m v, c ≠ Method r m v) → view (exec c h).2 r = view h r).
Proof.
  intros Hwf%reachable_wf Hr.
  pose proof (proj2 (view_is_Some h r Hwf) Hr) as Hsome.
  destruct (exec_change c h Hwf) as [o _|l t _|r0 m v s l -> Hs Hl _ _].
  - done.
  - rewrite view_alloc_old by done. done.
  - destruct (decide (r = r0)) as [->|Hne].
    + rewrite view_update_eq by done. split; [done|]. intros Hc. by destruct (Hc m v).
    + rewrite view_update_ne by done. done.
Qed.

Lemma X4_a_call_touches_one_selector_at_most_witness :
  is_Some (view (exec (Method 1 m_class "x")
                   (store (run [Facade m_id "a"; Facade m_element "b"] start))).2 0) ∧
  ((∀ m v, Method 1 m_class "x" ≠ Method 0 m v) →
   view (exec (Method 1 m_class "x")
           (store (run [Facade m_id "a"; Facade m_element "b"] start))).2 0
   = view (store (run [Facade m_id "a"; Facade m_element "b"] start)) 0).
Proof.
  apply (X4_a_call_touches_one_selector_at_most
           (store (run [Facade m_id "a"; Facade m_element "b"] start))
           (Method 1 m_class "x") 0).
  - by exists [Facade m_id "a"; Facade m_element "b"].
  - simpl. lia.
Defined.

(** ** Sequences only grow *)

Lemma is_touched_touch_mono m m' t :
  is_touched m t = true → is_touched m (touch m' t) = true.
Proof. by destruct m, m'. Qed.

Lemma change_grows h c o h' r l t :
  wf h → change h c o h' → view h r = Some (l, t) →
  ∃ l' t', view h' r = Some (l ++ l', t') ∧
    ∀ m, is_touched m t = true → is_touched m t' = true.
Proof.
  intros Hwf Hc Hv.
  assert (Hr : r < length (selectors h)) by (apply view_is_Some; [done|by rewrite Hv]).
  destruct Hc as [o _|l0 t0 _|r0 m v s l0 _ Hs Hl _ _].
  - exists [], t. by rewrite app_nil_r.
  - exists [], t. rewrite view_alloc_old by done. by rewrite app_nil_r.
  - destruct (decide (r = r0)) as [->|Hne].
    + assert (Hv0 : view h r0 = Some (l0, touched s)) by (apply view_Some; eauto).
      rewrite Hv in Hv0. injection Hv0 as -> ->.
      exists [part m v], (touch m (touched s)).
      rewrite view_update_eq by done. split; [done|].
      intros m'. apply is_touched_touch_mono.
    + exists [], t. rewrite view_update_ne by done. by rewrite app_nil_r.
Qed.

Lemma run_app cs cs' st : run (cs ++ cs') st = run cs' (run cs st).
Proof. unfold run. apply foldl_app. Qed.

(** X5.  Whatever calls are made and whatever follows them, the sequence of
    a selector is only ever extended at its end, and a flag that is set
    stays set: no call removes, replaces or reorders items. *)
Theorem X5_sequences_only_grow cs cs' r l t :
  view (store (run cs start)) r = Some (l, t) →
  ∃ l' t', view (store (run (cs ++ cs') start)) r = Some (l ++ l', t') ∧
    ∀ m, is_touched m t = true → is_touched m t' = true.
Proof.
  intros Hv. induction cs' as [|c cs' IH] using rev_ind.
  - exists [], t. by rewrite !app_nil_r.
  - destruct IH as (l1 & t1 & Hv1 & Hmono).
    rewrite app_assoc, run_snoc.
    destruct (step_change (run (cs ++ cs') start) c (run_wf _)) as (o & h' & -> & Hc).
    destruct (change_grows _ _ _ _ r _ _ (run_wf _) Hc Hv1) as (l2 & t2 & Hv2 & Hmono2).
    exists (l1 ++ l2), t2. simpl. rewrite app_assoc. split; [done|]. auto.
Qed.

Lemma X5_sequences_only_grow_witness :
  ∃ l' t',
    view (store (run ([Facade m_id "a"] ++ [Method 0 m_class "x"; Combine 0 "+" 0]) start)) 0
      = Some ([Item t_id "#a"] ++ l', t') ∧
    ∀ m, is_touched m (Touched false true false) = true → is_touched m t' = true.
Proof.
  apply (X5_sequences_only_grow [Facade m_id "a"] [Method 0 m_class "x"; Combine 0 "+" 0]
           0 [Item t_id "#a"] (Touched false true false)).
  reflexivity.
Defined.

(** ** After a part, no part of lower rank *)

(** What a call of an appending method has appended to [r] is in the
    sequence of [r]. *)
Lemma run_appended_present cs c r m :
  (c, Normal (Ref r)) ∈ log (run cs start) → is_append m r c →
  ∃ l t i, view (store (run cs start)) r = Some (l, t) ∧ i ∈ l ∧ type i = method_type m.
Proof.
  revert c r m. induction cs as [|c0 cs IH] using rev_ind; intros c r m Hin Happ.
  { by apply elem_of_nil in Hin. }
  destruct (run_log_ok cs) as [Hb _].
  rewrite run_snoc in *.
  destruct (step_change (run cs start) c0 (run_wf cs)) as (o & h' & E & Hc).
  rewrite E in *. simpl in *.
  apply elem_of_app in Hin as [Hin|Hin%list_elem_of_singleton].
  - destruct (IH c r m Hin Happ) as (l & t & i & Hv & Hi & Hty).
    destruct (change_grows _ _ _ _ r l t (run_wf cs) Hc Hv) as (l' & t' & Hv' & _).
    exists (l ++ l'), t', i. split_and!; [done|apply elem_of_app; by left|done].
  - injection Hin as -> <-.
    inversion Hc as [o' Hno|l0 t0 Hborn Ho|r0 m0 v s l0 Hc0 Hs Hl _ _ Ho]; subst.
    + by destruct (Hno r).
    + destruct c0 as [m0 v| |r1 cc r2|?|?]; simpl in Hborn, Happ; try done.
      destruct Hborn as [-> ->]. subst m0. injection Ho as <-.
      exists [part m v], (touch m untouched), (part m v).
      rewrite view_alloc_new.
      split_and!; [done|by apply list_elem_of_singleton|by destruct m].
    + simpl in Happ. destruct Happ as [_ ->].
      exists (l0 ++ [part m v]), (touch m (touched s)), (part m v).
      rewrite view_update_eq by (done || apply run_wf).
      split_and!; [done|apply elem_of_app; right; by apply list_elem_of_singleton|by destruct m].
Qed.

(** X6.  Whatever calls were made, once a call of method [m'] on a selector
    has returned, every later call on that selector of a method of strictly
    lower rank raises an error and changes nothing; after [pseudoElement]
    every appending method does. *)
Theorem X6_no_lower_rank_afterwards cs r m' m v :
  appended_via (log (run cs start)) r m' →
  ((rank m < rank m')%Z →
   ∃ e, Selector_call m r v (store (run cs start)) = (Throw e, store (run cs start))) ∧
  (m' = m_pseudoElement →
   ∃ e, Selector_call m r v (store (run cs start)) = (Throw e, store (run cs start))).
Proof.
  intros (c & Hin & Happ).
  destruct (run_appended_present cs c r m' Hin Happ) as (l & t & i & Hv & Hi & Hty).
  destruct (Selector_call_view _ r m v l t Hv) as (s & _ & _ & _ & Hcall).
  assert (Hlow : (rank m < rank m')%Z →
    ∃ e, Selector_call m r v (store (run cs start)) = (Throw e, store (run cs start))).
  { intros Hlt. rewrite Hcall. destruct (is_touched m t); [eauto|].
    assert (existsb (above (method_type m)) l = true) as ->; [|eauto].
    apply existsb_exists. exists i. split; [by apply list_elem_of_In|].
    unfold above. rewrite Hty, !order_rank. simpl. lia. }
  split; [done|]. intros ->.
  destruct (decide (m = m_pseudoElement)) as [->|Hne]; [|apply Hlow; by destruct m].
  destruct (run_log_ok cs) as [_ Hlog]. destruct (Hlog r l t Hv) as [Ht _].
  rewrite Hcall. rewrite (proj2 (Ht m_pseudoElement eq_refl)); [eauto|].
  by exists c.
Qed.

Lemma X6_no_lower_rank_afterwards_witness :
  ∃ e, Selector_call m_id 0 "main" (store (run [Facade m_class "x"] start))
       = (Throw e, store (run [Facade m_class "x"] start)).
Proof.
  refine (proj1 (X6_no_lower_rank_afterwards [Facade m_class "x"] 0 m_class m_id "main" _) _).
  - exists (Facade m_class "x"). split; [|done].
    apply list_elem_of_singleton. reflexivity.
  - vm_compute. reflexivity.
Defined.

(** ** The text of a combination *)

Lemma append_assoc (a b c : string) : (a +:+ b) +:+ c = a +:+ b +:+ c.
Proof.
  induction a as [|x a IH]; [done|].
  change (String x ((a +:+ b) +:+ c) = String x (a +:+ b +:+ c)). by rewrite IH.
Qed.

Lemma stringify_Normal h r s h' :
  Selector.stringify r h = (Normal s, h') →
  ∃ l, fragments h r = Some l ∧ s = text l.
Proof.
  intros Hs. pose proof (stringify_fragments h r) as Hf. rewrite Hs in Hf. simpl in Hf.
  destruct (fragments h r) as [l|]; [|done].
  exists l. split; [done|]. rewrite <- join_text. congruence.
Qed.

Lemma combine_fragments h r1 c r2 l1 l2 :
  fragments h r1 = Some l1 → fragments h r2 = Some l2 →
  cssSelectorBuilder.combine r1 c r2 h
    = (Normal (length (selectors h)), alloc h (l1 ++ [combinator_item c] ++ l2) untouched).
Proof.
  intros [t1 (s1 & Hs1 & Hl1 & _)%view_Some]%fragments_view
         [t2 (s2 & Hs2 & Hl2 & _)%view_Some]%fragments_view.
  by eapply combine_spec.
Qed.

(** X7.  [combine(a, t, b).stringify()] is [a.stringify()], a space, the
    token, a space, [b.stringify()], whatever the two selectors hold. *)
Theorem X7_text_of_a_combination h r1 c r2 s1 s2 :
  Selector.stringify r1 h = (Normal s1, h) →
  Selector.stringify r2 h = (Normal s2, h) →
  ((r ← cssSelectorBuilder.combine r1 c r2; Selector.stringify r) h).1
    = Normal (s1 +:+ " " +:+ c +:+ " " +:+ s2).
Proof.
  intros (l1 & Hf1 & ->)%stringify_Normal (l2 & Hf2 & ->)%stringify_Normal.
  unfold mbind, M_bind. rewrite (combine_fragments h r1 c r2 l1 l2) by done.
  rewrite (stringify_text _ _ (l1 ++ [combinator_item c] ++ l2)).
  - rewrite !text_app, text_singleton. unfold combinator_item, value.
    by rewrite !append_assoc.
  - eapply view_fragments. apply view_alloc_new.
Qed.

Lemma X7_text_of_a_combination_witness :
  ((r ← cssSelectorBuilder.combine 0 "+" 1; Selector.stringify r)
     (store (run [Facade m_id "a"; Facade m_element "b"] start))).1
    = Normal ("#a" +:+ " " +:+ "+" +:+ " " +:+ "b").
Proof.
  apply (X7_text_of_a_combination
           (store (run [Facade m_id "a"; Facade m_element "b"] start)) 0 "+" 1);
    reflexivity.
Defined.

Lemma fragments_alloc_old h l t r :
  wf h → r < length (selectors h) → fragments (alloc h l t) r = fragments h r.
Proof.
  intros [Hlt _] Hr. unfold fragments, alloc; simpl.
  rewrite lookup_app_l by done.
  destruct (selectors h !! r) as [s|] eqn:Hs; [simpl|done].
  rewrite lookup_app_l; [done|]. by eapply Hlt.
Qed.

Lemma fragments_lt h r l : fragments h r = Some l → r < length (selectors h).
Proof.
  intros [t (s & Hs & _)%view_Some]%fragments_view. by eapply lookup_lt_Some.
Qed.

(** X8.  Combination is associative: in every store that calls of the
    module can produce, [combine(combine(a, s, b), t, c)] and
    [combine(a, s, combine(b, t, c))] return selectors with the same
    sequence and the same [stringify()]. *)
Theorem X8_combine_is_associative h a s b t c la lb lc :
  reachable h →
  fragments h a = Some la → fragments h b = Some lb → fragments h c = Some lc →
  ∃ r1 h1 r2 h2,
    (ab ← cssSelectorBuilder.combine a s b; cssSelectorBuilder.combine ab t c) h
      = (Normal r1, h1) ∧
    (bc ← cssSelectorBuilder.combine b t c; cssSelectorBuilder.combine a s bc) h
      = (Normal r2, h2) ∧
    fragments h1 r1 = Some (la ++ [combinator_item s] ++ lb ++ [combinator_item t] ++ lc) ∧
    fragments h2 r2 = fragments h1 r1 ∧
    (Selector.stringify r2 h2).1 = (Selector.stringify r1 h1).1.
Proof.
  intros Hwf%reachable_wf Ha Hb Hc.
  pose proof (fragments_lt _ _ _ Ha) as Hra.
  pose proof (fragments_lt _ _ _ Hb) as Hrb.
  pose proof (fragments_lt _ _ _ Hc) as Hrc.
  set (hab := alloc h (la ++ [combinator_item s] ++ lb) untouched).
  set (hbc := alloc h (lb ++ [combinator_item t] ++ lc) untouched).
  assert (Hab : fragments hab (length (selectors h)) = Some (la ++ [combinator_item s] ++ lb)).
  { eapply view_fragments. apply view_alloc_new. }
  assert (Hbc : fragments hbc (length (selectors h)) = Some (lb ++ [combinator_item t] ++ lc)).
  { eapply view_fragments. apply view_alloc_new. }
  assert (Hc' : fragments hab c = Some lc) by (unfold hab; by rewrite fragments_alloc_old).
  assert (Ha' : fragments hbc a = Some la) by (unfold hbc; by rewrite fragments_alloc_old).
  eexists _, _, _, _. split_and!.
  - unfold mbind, M_bind. rewrite (combine_fragments h a s b la lb) by done.
    fold hab.
    by rewrite (combine_fragments hab _ t c (la ++ [combinator_item s] ++ lb) lc).
  - unfold mbind, M_bind. rewrite (combine_fragments h b t c lb lc) by done.
    fold hbc.
    by rewrite (combine_fragments hbc a s _ la (lb ++ [combinator_item t] ++ lc)).
  - erewrite view_fragments by apply view_alloc_new. by rewrite <- !app_assoc.
  - erewrite !view_fragments by apply view_alloc_new. by rewrite <- !app_assoc.
  - rewrite !stringify_fragments.
    erewrite !view_fragments by apply view_alloc_new. by rewrite <- !app_assoc.
Qed.

Lemma X8_combine_is_associative_witness :
  ∃ r1 h1 r2 h2,
    (ab ← cssSelectorBuilder.combine 0 "+" 1; cssSelectorBuilder.combine ab "~" 2)
      (store (run [Facade m_id "a"; Facade m_element "b"; Facade m_class "c"] start))
      = (Normal r1, h1) ∧
    (bc ← cssSelectorBuilder.combine 1 "~" 2; cssSelectorBuilder.combine 0 "+" bc)
      (store (run [Facade m_id "a"; Facade m_element "b"; Facade m_class "c"] start))
      = (Normal r2, h2) ∧
    fragments h1 r1
      = Some ([Item t_id "#a"] ++ [combinator_item "+"] ++ [Item t_element "b"]
              ++ [combinator_item "~"] ++ [Item t_class ".c"]) ∧
    fragments h2 r2 = fragments h1 r1 ∧
    (Selector.stringify r2 h2).1 = (Selector.stringify r1 h1).1.
Proof.
  apply (X8_combine_is_associative
           (store (run [Facade m_id "a"; Facade m_element "b"; Facade m_class "c"] start))
           0 "+" 1 "~" 2).
  - by exists [Facade m_id "a"; Facade m_element "b"; Facade m_class "c"].
  - reflexivity.
  - reflexivity.
  - reflexivity.
Defined.

(** ** Appending to a combination *)

Lemma higher_ranked_app t l1 l2 :
  higher_ranked t (l1 ++ l2) ↔ higher_ranked t l1 ∨ higher_ranked t l2.
Proof.
  unfold higher_ranked. setoid_rewrite elem_of_app. split.
  - intros (i & a & b & [Hi|Hi] & H); [left|right]; eauto.
  - intros [(i & a & b & Hi & H)|(i & a & b & Hi & H)]; exists i, a, b; tauto.
Qed.

Lemma higher_ranked_combinator t c : ¬ higher_ranked t [combinator_item c].
Proof.
  intros (i & a & b & Hi%list_elem_of_singleton & Hty & _). by subst i.
Qed.

(** X9.  The selector that [combine] returns starts with all its flags
    unset, whatever its operands hold: an appending method called on it
    never raises the duplicate error; it raises the order error exactly when
    an item of one of the operands outranks it, and returns otherwise.  So
    [element] can be appended to a combination of element selectors. *)
Theorem X9_combination_restarts_the_flags h r1 c r2 l1 l2 m v :
  fragments h r1 = Some l1 → fragments h r2 = Some l2 →
  ∃ r h1, cssSelectorBuilder.combine r1 c r2 h = (Normal r, h1) ∧
    (Selector_call m r v h1).1 ≠ Throw DuplicateSelectorPartError ∧
    ((Selector_call m r v h1).1 = Throw SelectorOrderError ↔
       higher_ranked (method_type m) l1 ∨ higher_ranked (method_type m) l2) ∧
    (¬ higher_ranked (method_type m) l1 → ¬ higher_ranked (method_type m) l2 →
       (Selector_call m r v h1).1 = Normal r).
Proof.
  intros Hf1 Hf2. eexists _, _. split; [by apply combine_fragments|].
  pose proof (view_alloc_new h (l1 ++ [combinator_item c] ++ l2) untouched) as Hv.
  destruct (Selector_call_view _ _ m v _ _ Hv) as (s & _ & _ & _ & ->).
  replace (is_touched m untouched) with false by (by destruct m).
  assert (Hiff : existsb (above (method_type m)) (l1 ++ [combinator_item c] ++ l2) = true ↔
            higher_ranked (method_type m) l1 ∨ higher_ranked (method_type m) l2).
  { rewrite above_higher_ranked, !higher_ranked_app.
    pose proof (higher_ranked_combinator (method_type m) c). tauto. }
  destruct (existsb _ _); simpl.
  - split_and!; [discriminate|tauto|]. intros H1 H2. destruct Hiff as [Hiff _].
    destruct (Hiff eq_refl); done.
  - split_and!; [discriminate| |done].
    split; [discriminate|]. intros H. by apply Hiff in H.
Qed.

Lemma X9_combination_restarts_the_flags_witness :
  ∃ r h1,
    cssSelectorBuilder.combine 0 " " 1
      (store (run [Facade m_element "a"; Facade m_element "b"] start)) = (Normal r, h1) ∧
    (Selector_call m_element r "c" h1).1 ≠ Throw DuplicateSelectorPartError ∧
    ((Selector_call m_element r "c" h1).1 = Throw SelectorOrderError ↔
       higher_ranked (method_type m_element) [Item t_element "a"] ∨
       higher_ranked (method_type m_element) [Item t_element "b"]) ∧
    (¬ higher_ranked (method_type m_element) [Item t_element "a"] →
     ¬ higher_ranked (method_type m_element) [Item t_element "b"] →
     (Selector_call m_element r "c" h1).1 = Normal r).
Proof.
  apply (X9_combination_restarts_the_flags
           (store (run [Facade m_element "a"; Facade m_element "b"] start)) 0 " " 1);
    reflexivity.
Defined.

(** ** pseudoElement and the order test *)

Lemma nothing_above_pseudoElement l : existsb (above t_pseudoElement) l = false.
Proof.
  induction l as [|i l IH]; [done|]. simpl. rewrite IH.
  by destruct i as [[] ?].
Qed.

(** X10.  No rank is above the rank of a pseudo-element, so on no store
    does [pseudoElement] raise the order error: on a selector whose
    [pseudoElement] flag is not set it returns, whatever the selector holds,
    and its only error is the duplicate error. *)
Theorem X10_pseudoElement_passes_the_order_test h r v :
  (Selector.pseudoElement r v h).1 ≠ Throw SelectorOrderError ∧
  (∀ l t, view h r = Some (l, t) → touched_pseudoElement t = false →
     (Selector.pseudoElement r v h).1 = Normal r ∧
     fragments (Selector.pseudoElement r v h).2 r
       = Some (l ++ [Item t_pseudoElement ("::" +:+ v)])).
Proof.
  change (Selector.pseudoElement r v h) with (Selector_call m_pseudoElement r v h).
  split.
  - destruct (selectors h !! r) as [s|] eqn:Hs;
      [destruct (arrays h !! items s) as [l|] eqn:Hl|].
    + rewrite (Selector_call_spec h r _ v s l) by done.
      rewrite nothing_above_pseudoElement. by destruct (is_touched _ _).
    + rewrite (Selector_call_no_array h r _ v s) by done. by destruct (is_touched _ _).
    + by rewrite Selector_call_dangling.
  - intros l t Hv Ht. pose proof Hv as (s & Hs & Hl & <-)%view_Some.
    rewrite (Selector_call_spec h r _ v s l) by done.
    simpl in *. rewrite Ht, nothing_above_pseudoElement. simpl. split; [done|].
    unfold fragments; simpl.
    rewrite list_lookup_insert_eq by (by eapply lookup_lt_Some); simpl.
    by rewrite list_lookup_insert_eq by (by eapply lookup_lt_Some).
Qed.

Lemma X10_pseudoElement_passes_the_order_test_witness :
  (Selector.pseudoElement 0 "after" (store (run session_element_class start))).1 = Normal 0 ∧
  fragments (Selector.pseudoElement 0 "after" (store (run session_element_class start))).2 0
    = Some ([Item t_element "a"; Item t_class ".x"]
            ++ [Item t_pseudoElement ("::" +:+ "after")]).
Proof.
  apply (proj2 (X10_pseudoElement_passes_the_order_test
                  (store (run session_element_class start)) 0 "after")
           [Item t_element "a"; Item t_class ".x"] (Touched true false false));
    reflexivity.
Defined.

(** ** Combinator items come from combine only *)

Lemma combined_dec lg r : combined lg r ∨ ¬ combined lg r.
Proof.
  induction lg as [|[c o] lg IH].
  - right. intros (? & ? & ? & H). by apply elem_of_nil in H.
  - destruct IH as [(r1 & cc & r2 & H)|IH].
    { left. exists r1, cc, r2. by apply elem_of_cons; right. }
    assert (Hno : (∀ r1 cc r2, (c, o) ≠ (Combine r1 cc r2, Normal (Ref r))) → ¬ combined ((c, o) :: lg) r).
    { intros Hne (r1 & cc & r2 & [H|H]%elem_of_cons); [by eapply Hne|].
      apply IH. by exists r1, cc, r2. }
    destruct c as [| |r1 cc r2| |]; try (right; apply Hno; discriminate).
    destruct o as [[r'|]| |]; try (right; apply Hno; discriminate).
    destruct (decide (r' = r)) as [->|Hne].
    + left. exists r1, cc, r2. by apply elem_of_cons; left.
    + right. apply Hno. intros ? ? ? ?. by simplify_eq.
Qed.

(** X11.  Whatever calls were made, a selector holds a combinator item
    exactly when it is what a call of [combine] returned: the appending
    methods and the facade functions never put one in, and [combine] always
    does. *)
Theorem X11_combinator_items_come_from_combine cs r l :
  fragments (store (run cs start)) r = Some l →
  (∃ i, i ∈ l ∧ type i = t_combinator) ↔ combined (log (run cs start)) r.
Proof.
  intros [t Hv]%fragments_view.
  destruct (run_log_ok cs) as [_ Hlog]. destruct (Hlog r l t Hv) as [_ Hnc].
  split.
  - intros (i & Hi & Hty).
    destruct (combined_dec (log (run cs start)) r) as [?|Hn]; [done|].
    apply Hnc in Hn. unfold no_combinator in Hn. rewrite Forall_forall in Hn.
    by destruct (Hn i Hi).
  - intros Hc.
    destruct (decide (Exists (λ i, type i = t_combinator) l)) as [He|He].
    + apply Exists_exists in He. done.
    + destruct (proj1 Hnc); [|done].
      apply Forall_forall. intros i Hi Hty. apply He, Exists_exists. eauto.
Qed.

Lemma X11_combinator_items_come_from_combine_witness :
  (∃ i, i ∈ [Item t_element "div"; Item t_combinator "   "; Item t_element "table"] ∧
        type i = t_combinator) ↔
  combined (log (run session_combine_elements start)) 2.
Proof.
  apply (X11_combinator_items_come_from_combine session_combine_elements 2).
  reflexivity.
Defined.

(** ** New selectors are new *)

(** X13.  Whatever calls were made, the selector that a facade function or
    [combine] returns is one that no earlier call has returned. *)
Theorem X13_new_selectors_are_new cs c r c' :
  (∀ r0 m v, c ≠ Method r0 m v) →
  (exec c (store (run cs start))).1 = Normal (Ref r) →
  (c', Normal (Ref r)) ∉ log (run cs start).
Proof.
  intros Hc Hex Hin. destruct (run_log_ok cs) as [Hb _]. apply Hb in Hin.
  destruct (exec_change c (store (run cs start)) (run_wf cs))
    as [o Hno|l t Hborn|r0 m v s l -> _ _ _ _].
  - rewrite Hex in Hno. by destruct (Hno r).
  - destruct c; simpl in Hborn; try done; simplify_eq; lia.
  - by destruct (Hc r0 m v).
Qed.

Lemma X13_new_selectors_are_new_witness :
  (Facade m_id "a", Normal (Ref 1)) ∉ log (run [Facade m_id "a"] start).
Proof.
  apply (X13_new_selectors_are_new [Facade m_id "a"] (Facade m_class "x") 1).
  - discriminate.
  - reflexivity.
Defined.

(** * Further properties of Rectangle *)

Lemma constructions_snoc {number : Type} (whs : list (number * number)) w h s :
  constructions (whs ++ [(w, h)]) s = (Rectangle w h (constructions whs s)).2.
Proof. unfold constructions. by rewrite foldl_app. Qed.

Lemma objects_constructions {number : Type} (whs : list (number * number)) s :
  objects (constructions whs s) = objects s ++ map (λ wh, Rectangle_ wh.1 wh.2) whs.
Proof.
  induction whs as [|[w h] whs IH] using rev_ind; [by rewrite app_nil_r|].
  rewrite constructions_snoc, map_app. simpl. rewrite IH. by rewrite app_assoc.
Qed.

(** X12.  After any series of constructions that ends with
    [new Rectangle(w, h)], every object keeps the [width] and [height] it
    was made with, the objects of the series and the older ones alike, while
    [getArea()] of every one of them returns [w * h]. *)
Theorem X12_fields_are_kept_getArea_is_shared {number : Type}
    (mul : number → number → number) (s : Rectangle_heap number)
    (whs : list (number * number)) (w h : number) :
  (∀ r o, objects s !! r = Some o →
     objects (constructions (whs ++ [(w, h)]) s) !! r = Some o) ∧
  (∀ i wi hi, (whs ++ [(w, h)]) !! i = Some (wi, hi) →
     objects (constructions (whs ++ [(w, h)]) s) !! (length (objects s) + i)
       = Some (Rectangle_ wi hi)) ∧
  (∀ r, r < length (objects s) + length whs + 1 →
     getArea mul r (constructions (whs ++ [(w, h)]) s) = Some (mul w h)).
Proof.
  split_and!.
  - intros r o Hr. rewrite objects_constructions. by apply lookup_app_l_Some.
  - intros i wi hi Hi. rewrite objects_constructions.
    rewrite lookup_app_r by lia.
    replace (length (objects s) + i - length (objects s)) with i by lia.
    rewrite list_lookup_fmap, Hi. done.
  - intros r Hr. unfold getArea.
    destruct (lookup_lt_is_Some_2 (objects (constructions (whs ++ [(w, h)]) s)) r)
      as [o ->].
    { rewrite objects_constructions, length_app, length_map, length_app. simpl. lia. }
    by rewrite constructions_snoc.
Qed.

Lemma X12_fields_are_kept_getArea_is_shared_witness :
  getArea Z.mul 0 (constructions ([(10, 20)] ++ [(3, 4)])%Z (Rectangle_heap_ [] None))
    = Some (3 * 4)%Z.
Proof.
  apply (X12_fields_are_kept_getArea_is_shared Z.mul (Rectangle_heap_ [] None)
           [(10, 20)%Z] 3%Z 4%Z).
  simpl. lia.
Defined.
